(** * Verification of the distributor read path (pkg/distributor/query.go)

    The development embeds the merge utilities, the replica selector, the
    per-message limit checks, the exemplar reconciler, the non-streaming
    fold and the streaming aggregator of [query.go], and settles the
    properties stated for them. *)

From Stdlib Require Import ZArith Lia Sorted.
From Stdlib Require Import Floats.SpecFloat.
From stdpp Require Import gmap strings list fin_maps sorting.

Local Open Scope Z_scope.

(** ** Data model (cortexpb) *)

(** [cortexpb.Sample]: a 64-bit float value and an int64 millisecond
    timestamp.  Floats are kept as IEEE-754 specification floats so that
    Go's [==] on [float64] (NaN differs from itself, both zeros agree) is
    [SFeqb]. *)
Record Sample := mkSample { sValue : spec_float; sTimestampMs : Z }.

(** [cortexpb.LabelAdapter] and a label set as the slice the wire carries. *)
Definition LabelAdapter : Type := string * string.
Definition Labels : Type := list LabelAdapter.

(** [cortexpb.Exemplar]. *)
Record Exemplar := mkExemplar {
  eLabels : Labels;
  eValue : spec_float;
  eTimestampMs : Z
}.

(** Go's [a[i] != b[i]] on the [Sample] struct compares field by field. *)
Definition sample_eqb (x y : Sample) : bool :=
  SFeqb (sValue x) (sValue y) && (sTimestampMs x =? sTimestampMs y).

(** ** The merge loop shared by [mergeSamples] and [mergeExemplarSets] *)

Module Merge.
Section Loop.
Context {A : Type} (ts : A → Z).

(** The [for i < len(a) && j < len(b)] loop, on the indices [i], [j] and
    the [result] slice; [fuel] bounds the number of iterations. *)
Fixpoint loop (fuel : nat) (a b : list A) (i j : nat) (result : list A)
  : nat * nat * list A :=
  match fuel with
  | O => (i, j, result)
  | S fuel' =>
    match a !! i, b !! j with
    | Some x, Some y =>
      if ts x <? ts y then loop fuel' a b (S i) j (result ++ [x])
      else if ts x >? ts y then loop fuel' a b i (S j) (result ++ [y])
      else loop fuel' a b (S i) (S j) (result ++ [x])
    | _, _ => (i, j, result)
    end
  end.

(** The loop followed by the two [append(result, a[i:]...)],
    [append(result, b[j:]...)] statements. *)
Definition run (a b : list A) : list A :=
  let '(i, j, result) := loop (length a + length b) a b 0 0 [] in
  (result ++ drop i a) ++ drop j b.

(** The same computation by recursion on the two remaining suffixes. *)
Fixpoint merge (a : list A) : list A → list A :=
  fix merge_b (b : list A) : list A :=
    match a, b with
    | [], _ => b
    | _, [] => a
    | x :: a', y :: b' =>
      if ts x <? ts y then x :: merge a' b
      else if ts x >? ts y then y :: merge_b b'
      else x :: merge a' b'
    end.

Definition tss (l : list A) : list Z := ts <$> l.

(** Sorted ascending by timestamp, no timestamp twice. *)
Definition ascending (l : list A) : Prop := Sorted Z.le (tss l).
Definition distinct (l : list A) : Prop := NoDup (tss l).
Definition strict (l : list A) : Prop :=
  StronglySorted (λ x y, ts x < ts y) l.
End Loop.
End Merge.

(** ** [mergeSamples], [sameSamples], [mergeExemplarSets] *)

(** The loop [for i := 0; i < len(a); i++] of [sameSamples], on the two
    slices from index [i] on; it runs after the length test, so [b] ends
    where [a] does. *)
Fixpoint sameSamples_from (a b : list Sample) : bool :=
  match a, b with
  | [], [] => true
  | x :: a', y :: b' => if negb (sample_eqb x y) then false else sameSamples_from a' b'
  | _, _ => true
  end.

Definition sameSamples (a b : list Sample) : bool :=
  if negb (length a =? length b)%nat then false else sameSamples_from a b.

(** The fast path, then the merge loop and the two appends. *)
Definition mergeSamples (a b : list Sample) : list Sample :=
  if sameSamples a b then a else Merge.run sTimestampMs a b.

Definition mergeExemplarSets (a b : list Exemplar) : list Exemplar :=
  Merge.run eTimestampMs a b.

(** ** Series, chunks and responses (cortexpb, ingester client) *)

(** [cortexpb.TimeSeries].  A nil slice and an empty one hold the same
    elements; both are the empty list here. *)
Record TimeSeries := mkTimeSeries {
  tLabels : Labels;
  tSamples : list Sample;
  tExemplars : list Exemplar
}.

(** The zero value Go's map lookup gives for a missing key. *)
Definition zeroTimeSeries : TimeSeries := mkTimeSeries [] [] [].

(** [client.Chunk]: an opaque payload with its time range and encoding. *)
Record Chunk := mkChunk {
  cStartTimestampMs : Z;
  cEndTimestampMs : Z;
  cEncoding : Z;
  cData : list Byte.byte
}.

(** [client.TimeSeriesChunk]. *)
Record TimeSeriesChunk := mkTimeSeriesChunk {
  csLabels : Labels;
  csChunks : list Chunk
}.

Definition zeroTimeSeriesChunk : TimeSeriesChunk := mkTimeSeriesChunk [] [].

(** [client.QueryStreamResponse], one streamed message or the final answer. *)
Record QueryStreamResponse := mkQueryStreamResponse {
  rChunkseries : list TimeSeriesChunk;
  rTimeseries : list TimeSeries
}.

(** [client.ExemplarQueryResponse]. *)
Record ExemplarQueryResponse := mkExemplarQueryResponse {
  xTimeseries : list TimeSeries
}.

(** ** Errors *)

(** The errors the read path tells apart: [io.EOF], a gRPC status error
    with its code, the limit error built by [validation.LimitError], and
    any other error. *)
Inductive error :=
  | EOF
  | GRPCStatus (code : Z) (msg : string)
  | LimitError (msg : string)
  | OtherError (msg : string).

(** Modelled from the spec: [grpcutil.IsGRPCContextCanceled] (package
    pkg/util/grpcutil is not among the sources), the test for a
    cancellation-class error: a gRPC status whose code is Canceled (1). *)
Definition IsGRPCContextCanceled (err : error) : bool :=
  match err with
  | GRPCStatus code _ => code =? 1
  | _ => false
  end.

(** ** The exemplar reconciler: [mergeExemplarQueryResponses] *)

Module Reconciler.
Section Defs.
(** [labels.Labels.Bytes], the canonical encoding of a label set, from the
    Prometheus library; [string(...)] copies it out of the shared buffer. *)
Context (Bytes : Labels → string).

(** The state of the two nested [for] loops: [keys] and [exemplarResults]. *)
Definition acc : Type := list string * gmap string TimeSeries.

(** The body of the inner loop, for one series [ts] of one response. *)
Definition addSeries (st : acc) (ts : TimeSeries) : acc :=
  let '(keys, exemplarResults) := st in
  let lbls := Bytes (tLabels ts) in
  match exemplarResults !! lbls with
  | None => (keys ++ [lbls], <[lbls := ts]> exemplarResults)
  | Some e =>
    let e' := mkTimeSeries (tLabels e) (tSamples e)
                (mergeExemplarSets (tExemplars e) (tExemplars ts)) in
    (keys, <[lbls := e']> exemplarResults)
  end.

Definition addResponse (st : acc) (r : ExemplarQueryResponse) : acc :=
  foldl addSeries st (xTimeseries r).

Definition collect (results : list ExemplarQueryResponse) : acc :=
  foldl addResponse ([], ∅) results.

(** [sort.Strings]: the ascending arrangement of the slice, in the
    byte-wise order of Go strings. *)
Definition sortStrings (keys : list string) : list string :=
  merge_sort String.le keys.

(** [for i, k := range keys { result[i] = exemplarResults[k] }] on a
    [result] slice of fixed length; an index out of range panics ([None]). *)
Fixpoint fill (exemplarResults : gmap string TimeSeries) (keys : list string)
    (i : nat) (result : list TimeSeries) : option (list TimeSeries) :=
  match keys with
  | [] => Some result
  | k :: keys' =>
    if decide (i < length result)%nat
    then fill exemplarResults keys' (S i)
           (<[i := default zeroTimeSeries (exemplarResults !! k)]> result)
    else None
  end.

Definition mergeExemplarQueryResponses (results : list ExemplarQueryResponse)
    : option ExemplarQueryResponse :=
  let '(keys, exemplarResults) := collect results in
  let keys := sortStrings keys in
  let result := replicate (size exemplarResults) zeroTimeSeries in
  mkExemplarQueryResponse <$> fill exemplarResults keys 0 result.

(** The identity of an output entry: the encoding of its label set. *)
Definition identity (ts : TimeSeries) : string := Bytes (tLabels ts).
(** What the two loops keep true of [keys] and [exemplarResults]: every
    key is listed once, the listed keys are those of the map, and an entry
    sits under the encoding of its own label set. *)
Record consistent (st : acc) : Prop := {
  keys_nodup : NoDup st.1;
  keys_dom : ∀ k, k ∈ st.1 ↔ is_Some (st.2 !! k);
  keys_size : length st.1 = size st.2;
  entry_key : ∀ k e, st.2 !! k = Some e → identity e = k
}.
End Defs.
End Reconciler.

(** ** The non-streaming merge of [queryIngesters] *)

Module Matrix.

(** [model.Metric], a map from label names to label values;
    [model.SamplePair]; [model.SampleStream]; [model.Matrix]. *)
Abbreviation Metric := (gmap string string).
Record SamplePair := mkSamplePair { pTimestamp : Z; pValue : spec_float }.
Record SampleStream := mkSampleStream {
  ssMetric : Metric;
  ssValues : list SamplePair
}.
Abbreviation Matrix := (list SampleStream).

Section Defs.
(** [model.Metric.Fingerprint] is the Prometheus library's hash of the label
    set; whatever it computes, the result is a [uint64]. *)
Context (hash : Metric → Z).
(** [util.MergeSampleSets] of pkg/util, not among the sources. *)
Context (MergeSampleSets : list SamplePair → list SamplePair → list SamplePair).

Definition Fingerprint (m : Metric) : Z := hash m mod 2 ^ 64.

(** The body of the inner loop for one stream [ss]; the map holds pointers,
    so assigning [mss.Values] updates the entry. *)
Definition addStream (fpToSampleStream : gmap Z SampleStream) (ss : SampleStream)
    : gmap Z SampleStream :=
  let fp := Fingerprint (ssMetric ss) in
  let mss :=
    match fpToSampleStream !! fp with
    | Some mss => mss
    | None => mkSampleStream (ssMetric ss) []
    end in
  <[fp := mkSampleStream (ssMetric mss) (MergeSampleSets (ssValues mss) (ssValues ss))]>
    fpToSampleStream.

Definition addResult (m : gmap Z SampleStream) (result : Matrix) : gmap Z SampleStream :=
  foldl addStream m result.

Definition accumulate (results : list Matrix) : gmap Z SampleStream :=
  foldl addResult ∅ results.

(** The final [for _, ss := range fpToSampleStream]: the entries in the
    order the map enumeration gives them. *)
Definition mergeResults (results : list Matrix) : Matrix :=
  (map_to_list (accumulate results)).*2.

(** The accumulator a stream is folded into. *)
Definition accumulatorOf (ss : SampleStream) : Z := Fingerprint (ssMetric ss).

(** What the fold keeps true of [fpToSampleStream] after the streams
    [seen]: an entry sits under the fingerprint of its own label set, that
    label set came with one of the streams, and the keys are the
    fingerprints of the streams seen. *)
Record tracks (m : gmap Z SampleStream) (seen : list SampleStream) : Prop := {
  entry_fp : ∀ k v, m !! k = Some v → accumulatorOf v = k;
  entry_src : ∀ k v, m !! k = Some v →
    ∃ ss, ss ∈ seen ∧ ssMetric v = ssMetric ss;
  keys_seen : ∀ k, is_Some (m !! k) ↔ ∃ ss, ss ∈ seen ∧ accumulatorOf ss = k
}.
End Defs.

(** [model.Metric.Fingerprint] is not among the sources.  It is the
    function of the Prometheus client library the distributor is built
    against (prometheus/common, model/fnv.go and model/signature.go, whose
    comment says that collisions are possible): 64-bit FNV-1a over the label
    names in ascending byte order, each name and each value followed by the
    separator byte 255; the empty label set has the initial hash. *)
Definition offset64 : Z := 14695981039346656037.
Definition prime64 : Z := 1099511628211.
Definition SeparatorByte : Z := 255.

Definition hashNew : Z := offset64.

(** [h ^= uint64(b); h *= prime64], in [uint64]. *)
Definition hashAddByte (h b : Z) : Z := (Z.lxor h b * prime64) mod 2 ^ 64.

Fixpoint hashAdd (h : Z) (s : string) : Z :=
  match s with
  | EmptyString => h
  | String c s' => hashAdd (hashAddByte h (Z.of_N (Ascii.N_of_ascii c))) s'
  end.

Definition labelSetToFingerprint (ls : Metric) : Z :=
  if decide (size ls = 0%nat) then hashNew
  else
    let labelNames := merge_sort String.le (map_to_list ls).*1 in
    foldl (λ sum labelName,
             let sum := hashAdd sum labelName in
             let sum := hashAddByte sum SeparatorByte in
             let sum := hashAdd sum (default EmptyString (ls !! labelName)) in
             hashAddByte sum SeparatorByte)
          hashNew labelNames.

(** A family of pairwise distinct label sets: the metric name is [n]
    letters long. *)
Fixpoint nameNo (n : nat) : string :=
  match n with
  | O => EmptyString
  | S n' => "m" +:+ nameNo n'
  end.

Definition metricNo (n : nat) : Metric := {[ "__name__" := nameNo n ]}.
End Matrix.

(** ** The replica selector: [GetIngestersForQuery] *)

Module Selector.

(** [labels.MatchType] and [labels.Matcher] of the Prometheus library. *)
Inductive MatchType := MatchEqual | MatchNotEqual | MatchRegexp | MatchNotRegexp.

Global Instance MatchType_eq_dec : EqDecision MatchType.
Proof. solve_decision. Defined.

Record Matcher := mkMatcher {
  mType : MatchType;
  mName : string;
  mValue : string
}.

(** [ring.Operation]; the read path asks for [Read]. *)
Inductive Operation := Read | Write.

(** The fields of the distributor's [Config] the selector reads. *)
Record Config := mkConfig {
  ShardingStrategy : string;
  ShuffleShardingLookbackPeriod : Z;
  ShardByAllLabels : bool
}.

Section Defs.
(** The request context, the ring and the replication set are the
    collaborators' types. *)
Context {Ctx Ring ReplicationSet : Type}.
(** [tenant.TenantID]. *)
Context (TenantID : Ctx → error + string).
(** [util.ShardingStrategyShuffle], a constant of pkg/util. *)
Context (ShardingStrategyShuffle : string).
(** [d.limits.IngestionTenantShardSize]. *)
Context (IngestionTenantShardSize : string → Z).
(** The ring: [ShuffleShardWithLookback], [GetReplicationSetForOperation]
    and [Get] (its buffers are [nil] at this call). *)
Context (ShuffleShardWithLookback : Ring → string → Z → Z → Z → Ring).
Context (GetReplicationSetForOperation : Ring → Operation → error + ReplicationSet).
Context (Get : Ring → Z → Operation → error + ReplicationSet).
(** [shardByMetricName] of distributor.go. *)
Context (shardByMetricName : string → string → Z).
(** [extract.MetricNameMatcherFromMatchers]: the metric-name matcher when
    there is one ([ok]); the remaining matchers are not used here. *)
Context (MetricNameMatcherFromMatchers : list Matcher → option Matcher).

Record Distributor := mkDistributor {
  cfg : Config;
  ingestersRing : Ring
}.

(** The function body, with [now] for [time.Now()].  Each [Some] is a
    [return] inside an [if]; [None] falls through to the next statement. *)
Definition GetIngestersForQuery (d : Distributor) (ctx : Ctx) (now : Z)
    (matchers : list Matcher) : error + ReplicationSet :=
  match TenantID ctx with
  | inl err => inl err
  | inr userID =>
    let shuffled :=
      if decide (ShardingStrategy (cfg d) = ShardingStrategyShuffle) then
        let shardSize := IngestionTenantShardSize userID in
        let lookbackPeriod := ShuffleShardingLookbackPeriod (cfg d) in
        if (shardSize >? 0) && (lookbackPeriod >? 0) then
          Some (GetReplicationSetForOperation
                  (ShuffleShardWithLookback (ingestersRing d) userID shardSize
                     lookbackPeriod now) Read)
        else None
      else None in
    match shuffled with
    | Some r => r
    | None =>
      let byMetricName :=
        if negb (ShardByAllLabels (cfg d)) && (0 <? length matchers)%nat then
          match MetricNameMatcherFromMatchers matchers with
          | Some metricNameMatcher =>
            if decide (mType metricNameMatcher = MatchEqual) then
              Some (Get (ingestersRing d)
                      (shardByMetricName userID (mValue metricNameMatcher)) Read)
            else None
          | None => None
          end
        else None in
      match byMetricName with
      | Some r => r
      | None => GetReplicationSetForOperation (ingestersRing d) Read
      end
    end
  end.

(** The priority order in the words of the specification. *)
Definition shuffleApplies (d : Distributor) (userID : string) : Prop :=
  ShardingStrategy (cfg d) = ShardingStrategyShuffle
  ∧ 0 < IngestionTenantShardSize userID
  ∧ 0 < ShuffleShardingLookbackPeriod (cfg d).

Definition metricNameApplies (d : Distributor) (matchers : list Matcher)
    (m : Matcher) : Prop :=
  ShardByAllLabels (cfg d) = false
  ∧ matchers ≠ []
  ∧ MetricNameMatcherFromMatchers matchers = Some m
  ∧ mType m = MatchEqual.

Inductive selects (d : Distributor) (userID : string) (now : Z)
    (matchers : list Matcher) : error + ReplicationSet → Prop :=
  | selects_shuffle :
      shuffleApplies d userID →
      selects d userID now matchers
        (GetReplicationSetForOperation
           (ShuffleShardWithLookback (ingestersRing d) userID
              (IngestionTenantShardSize userID)
              (ShuffleShardingLookbackPeriod (cfg d)) now) Read)
  | selects_metric_name m :
      ¬ shuffleApplies d userID →
      metricNameApplies d matchers m →
      selects d userID now matchers
        (Get (ingestersRing d) (shardByMetricName userID (mValue m)) Read)
  | selects_full_ring :
      ¬ shuffleApplies d userID →
      (∀ m, ¬ metricNameApplies d matchers m) →
      selects d userID now matchers
        (GetReplicationSetForOperation (ingestersRing d) Read).
End Defs.
End Selector.

(** ** Per-replica callbacks: metrics, limits and the receive loop *)

Module Callback.

(** The two counter vectors, by replica address. *)
Record Metrics := mkMetrics {
  ingesterQueries : gmap string nat;
  ingesterQueryFailures : gmap string nat
}.

(** [counter.WithLabelValues(addr).Inc()]. *)
Definition inc (addr : string) (c : gmap string nat) : gmap string nat :=
  <[addr := S (default 0%nat (c !! addr))]> c.

Definition count (addr : string) (c : gmap string nat) : nat :=
  default 0%nat (c !! addr).

(** A computation on a state [S] that returns a value or an error. *)
Definition M (S A : Type) : Type := S → S * (error + A).

Definition ret {S A : Type} (x : A) : M S A := λ s, (s, inr x).
Definition fail {S A : Type} (err : error) : M S A := λ s, (s, inl err).
Definition bind {S A B : Type} (m : M S A) (k : A → M S B) : M S B :=
  λ s, match m s with
       | (s', inl err) => (s', inl err)
       | (s', inr x) => k x s'
       end.

Declare Scope callback_scope.
Delimit Scope callback_scope with callback.
Notation "m ;; k" := (bind m (λ _, k))
  (at level 100, k at level 200, right associativity) : callback_scope.
Local Open Scope callback_scope.

Fixpoint forEach {S A : Type} (f : A → M S unit) (l : list A) : M S unit :=
  match l with
  | [] => ret tt
  | x :: l' => f x ;; forEach f l'
  end.

Definition when {S : Type} (b : bool) (m : M S unit) : M S unit :=
  if b then m else ret tt.

(** *** The callbacks of [queryIngesters] and [queryIngestersExemplars] *)

Definition incQueries (addr : string) : M Metrics unit :=
  λ m, (mkMetrics (inc addr (ingesterQueries m)) (ingesterQueryFailures m), inr tt).
Definition incFailures (addr : string) : M Metrics unit :=
  λ m, (mkMetrics (ingesterQueries m) (inc addr (ingesterQueryFailures m)), inr tt).

(** The callback given to [replicationSet.Do] in [queryIngesters]:
    [client] is the outcome of [GetClientFor], [reply] that of [Query]
    (already through [FromQueryResponse]). *)
Definition queryCallback {R : Type} (addr : string) (client : error + unit)
    (reply : error + R) : M Metrics R :=
  match client with
  | inl err => fail err
  | inr _ =>
    incQueries addr ;;
    match reply with
    | inl err => incFailures addr ;; fail err
    | inr resp => ret resp
    end
  end.

(** The callback in [queryIngestersExemplars], on [QueryExemplars]. *)
Definition exemplarCallback (addr : string) (client : error + unit)
    (reply : error + ExemplarQueryResponse) : M Metrics ExemplarQueryResponse :=
  match client with
  | inl err => fail err
  | inr _ =>
    incQueries addr ;;
    match reply with
    | inl err => incFailures addr ;; fail err
    | inr resp => ret resp
    end
  end.

(** *** The callback of [queryIngesterStream] *)

(** What a callback sends to the aggregator: a batch on [chCS] or on [chTS]. *)
Inductive Push :=
  | PushCS (batch : list TimeSeriesChunk)
  | PushTS (batch : list TimeSeries).

(** A server stream as [Recv] shows it: the messages, then the error that
    ends it ([EOF] at a regular end). *)
Record ClientStream := mkClientStream {
  messages : list QueryStreamResponse;
  closing : error
}.

Section Stream.
(** The query limiter of pkg/util/limiter: its state and its four checks,
    each giving the new state and the error message when the limit is
    exceeded. *)
Context {Limiter : Type}.
Context (AddChunks : Z → Limiter → Limiter * option string).
Context (AddSeries : Labels → Limiter → Limiter * option string).
Context (AddChunkBytes : Z → Limiter → Limiter * option string).
Context (AddDataBytes : Z → Limiter → Limiter * option string).
(** [ChunksCount], [ChunksSize] and [Size] of the response message. *)
Context (ChunksCount ChunksSize Size : QueryStreamResponse → Z).

(** What one callback acts on: the limiter, the counters, and the batches
    it has put on the channels so far. *)
Record World := mkWorld {
  limiter : Limiter;
  metrics : Metrics;
  sent : list Push
}.

Definition onMetrics (m : M Metrics unit) : M World unit :=
  λ w, let '(ms, r) := m (metrics w) in (mkWorld (limiter w) ms (sent w), r).

(** [if err := queryLimiter.X(..); err != nil
       { return nil, validation.LimitError(err.Error()) }]. *)
Definition limit (check : Limiter → Limiter * option string) : M World unit :=
  λ w, let '(l, r) := check (limiter w) in
       (mkWorld l (metrics w) (sent w),
        match r with
        | Some msg => inl (LimitError msg)
        | None => inr tt
        end).

Definition push (p : Push) : M World unit :=
  λ w, (mkWorld (limiter w) (metrics w) (sent w ++ [p]), inr tt).

(** The body of the receive loop for a message [resp]. *)
Definition handleMessage (resp : QueryStreamResponse) : M World unit :=
  limit (AddChunks (ChunksCount resp)) ;;
  forEach (λ series, limit (AddSeries (csLabels series))) (rChunkseries resp) ;;
  limit (AddChunkBytes (ChunksSize resp)) ;;
  limit (AddDataBytes (Size resp)) ;;
  forEach (λ series, limit (AddSeries (tLabels series))) (rTimeseries resp) ;;
  when (0 <? length (rChunkseries resp))%nat (push (PushCS (rChunkseries resp))) ;;
  when (0 <? length (rTimeseries resp))%nat (push (PushTS (rTimeseries resp))).

(** The [for] loop around [stream.Recv()]. *)
Fixpoint recvLoop (addr : string) (msgs : list QueryStreamResponse)
    (closing : error) : M World unit :=
  match msgs with
  | resp :: rest => handleMessage resp ;; recvLoop addr rest closing
  | [] =>
    match closing with
    | EOF => ret tt
    | err =>
      when (negb (IsGRPCContextCanceled err)) (onMetrics (incFailures addr)) ;;
      fail err
    end
  end.

(** The callback: [client] is the outcome of [GetClientFor], [opened] that
    of [QueryStream]; it returns the empty [result]. *)
Definition streamCallback (addr : string) (client : error + unit)
    (opened : error + ClientStream) : M World QueryStreamResponse :=
  match client with
  | inl err => fail err
  | inr _ =>
    onMetrics (incQueries addr) ;;
    match opened with
    | inl err => onMetrics (incFailures addr) ;; fail err
    | inr stream =>
      recvLoop addr (messages stream) (closing stream) ;;
      ret (mkQueryStreamResponse [] [])
    end
  end.

(** The checks of one message in the order the specification lists them,
    and the first of a list of checks that fails. *)
Definition checks (resp : QueryStreamResponse)
    : list (Limiter → Limiter * option string) :=
  [AddChunks (ChunksCount resp)]
  ++ ((λ series, AddSeries (csLabels series)) <$> rChunkseries resp)
  ++ [AddChunkBytes (ChunksSize resp); AddDataBytes (Size resp)]
  ++ ((λ series, AddSeries (tLabels series)) <$> rTimeseries resp).

Fixpoint firstFailure (cs : list (Limiter → Limiter * option string))
    (l : Limiter) : Limiter * option string :=
  match cs with
  | [] => (l, None)
  | c :: cs' =>
    match c l with
    | (l', Some msg) => (l', Some msg)
    | (l', None) => firstFailure cs' l'
    end
  end.

(** The batches a message puts on the channels once its checks pass. *)
Definition pushes (resp : QueryStreamResponse) : list Push :=
  (if (0 <? length (rChunkseries resp))%nat then [PushCS (rChunkseries resp)] else [])
  ++ (if (0 <? length (rTimeseries resp))%nat then [PushTS (rTimeseries resp)] else []).
(** A list of checks run in order, as a computation. *)
Definition checked (cs : list (Limiter → Limiter * option string)) : M World unit :=
  λ w, match firstFailure cs (limiter w) with
       | (l, Some msg) => (mkWorld l (metrics w) (sent w), inl (LimitError msg))
       | (l, None) => (mkWorld l (metrics w) (sent w), inr tt)
       end.
End Stream.

(** Modelled from the spec: the query limiter (pkg/util/limiter is not
    among the sources) as four running totals, each checked against its
    maximum after the addition; series are counted by distinct label set. *)
Record Counters := mkCounters {
  nChunks : Z;
  seenSeries : list Labels;
  nChunkBytes : Z;
  nDataBytes : Z
}.

Record Limits := mkLimits {
  maxChunks : Z;
  maxSeries : Z;
  maxChunkBytes : Z;
  maxDataBytes : Z
}.

Definition exceeded (total max : Z) (msg : string) : option string :=
  if max <? total then Some msg else None.

Definition counterAddChunks (lim : Limits) (n : Z) (c : Counters)
    : Counters * option string :=
  let c' := mkCounters (nChunks c + n) (seenSeries c) (nChunkBytes c) (nDataBytes c) in
  (c', exceeded (nChunks c') (maxChunks lim) "max chunks").

Definition counterAddSeries (lim : Limits) (ls : Labels) (c : Counters)
    : Counters * option string :=
  let seen := if decide (ls ∈ seenSeries c) then seenSeries c else ls :: seenSeries c in
  let c' := mkCounters (nChunks c) seen (nChunkBytes c) (nDataBytes c) in
  (c', exceeded (Z.of_nat (length seen)) (maxSeries lim) "max series").

Definition counterAddChunkBytes (lim : Limits) (n : Z) (c : Counters)
    : Counters * option string :=
  let c' := mkCounters (nChunks c) (seenSeries c) (nChunkBytes c + n) (nDataBytes c) in
  (c', exceeded (nChunkBytes c') (maxChunkBytes lim) "max chunk bytes").

Definition counterAddDataBytes (lim : Limits) (n : Z) (c : Counters)
    : Counters * option string :=
  let c' := mkCounters (nChunks c) (seenSeries c) (nChunkBytes c) (nDataBytes c + n) in
  (c', exceeded (nDataBytes c') (maxDataBytes lim) "max data bytes").

(** Modelled from the spec: the chunk count and the chunk payload size of a
    message, and a size of the whole message that counts payload bytes and
    samples (the wire size is the protobuf encoder's). *)
Definition chunksCount (resp : QueryStreamResponse) : Z :=
  Z.of_nat (length (concat (csChunks <$> rChunkseries resp))).
Definition chunksSize (resp : QueryStreamResponse) : Z :=
  Z.of_nat (length (concat (cData <$> concat (csChunks <$> rChunkseries resp)))).
Definition messageSize (resp : QueryStreamResponse) : Z :=
  chunksSize resp + 16 * Z.of_nat (length (concat (tSamples <$> rTimeseries resp))).

End Callback.

(** ** The streaming engine: aggregator, channels and wait group *)

Module Engine.
Import Callback.

(** Where the aggregator goroutine and [queryIngesterStream] itself stand. *)
Inductive AggregatorPC :=
  | AggSelect      (* in the [select] of the [for] loop *)
  | AggReturned.   (* returned; the deferred [wg.Done()] has run *)

Inductive MainPC :=
  | MainDo         (* inside [replicationSet.Do] *)
  | MainSendDone   (* blocked in [doneCh <- struct{}{}] *)
  | MainWait       (* blocked in [wg.Wait()] *)
  | MainClose      (* past the wait, at [close(doneCh)] *)
  | MainReturned.  (* returned to the caller *)

Global Instance AggregatorPC_eq_dec : EqDecision AggregatorPC.
Proof. solve_decision. Defined.
Global Instance MainPC_eq_dec : EqDecision MainPC.
Proof. solve_decision. Defined.

Record State := mkState {
  chCS : list (list TimeSeriesChunk);     (* batches queued on [chCS] *)
  chTS : list (list TimeSeries);          (* batches queued on [chTS] *)
  capacity : nat;                         (* [len(replicationSet.Instances)] *)
  hashToChunkseries : gmap string TimeSeriesChunk;
  hashToTimeSeries : gmap string TimeSeries;
  wg : Z;                                 (* the wait group's counter *)
  aggregator : AggregatorPC;
  main : MainPC;
  replicas : list (list Push);            (* the sends each callback has left *)
  doErr : option error;                   (* the [err] that [Do] returned *)
  returned : option (error + QueryStreamResponse)  (* what the caller got *)
}.

(** What the scheduler picks next.  The goroutines interleave freely, and
    a [select] with several ready cases takes any one of them. *)
Inductive Choice :=
  | ReplicaSends (i : nat)   (* callback [i] completes its next channel send *)
  | DoReturns (err : option error)
                             (* [Do] returns, with or without an error *)
  | AggRecvCS                (* the [select] takes [case cs := <-chCS] *)
  | AggRecvTS                (* the [select] takes [case ts := <-chTS] *)
  | AggRecvDone              (* the [select] takes [case <-doneCh] *)
  | WaitReturns              (* [wg.Wait()] returns *)
  | Finish.                  (* [close(doneCh)], build the response, return *)

Section Defs.
(** [client.LabelsToKeyString] of pkg/ingester/client, on the labels the
    cast [FromLabelAdaptersToLabels] leaves as they are. *)
Context (LabelsToKeyString : Labels → string).

(** The body of [for _, series := range cs]. *)
Definition addChunkSeries (m : gmap string TimeSeriesChunk)
    (series : TimeSeriesChunk) : gmap string TimeSeriesChunk :=
  let key := LabelsToKeyString (csLabels series) in
  let existing := default zeroTimeSeriesChunk (m !! key) in
  <[key := mkTimeSeriesChunk (csLabels series)
             (csChunks existing ++ csChunks series)]> m.

(** The body of [for _, series := range ts].  [existing.Samples == nil]
    is the test for the empty list: on an empty, non-nil slice
    [mergeSamples] gives the elements of [series.Samples] as well. *)
Definition addTimeSeries (m : gmap string TimeSeries)
    (series : TimeSeries) : gmap string TimeSeries :=
  let key := LabelsToKeyString (tLabels series) in
  let existing := default zeroTimeSeries (m !! key) in
  let samples :=
    match tSamples existing with
    | [] => tSamples series
    | _ => mergeSamples (tSamples existing) (tSamples series)
    end in
  <[key := mkTimeSeries (tLabels series) samples (tExemplars existing)]> m.

(** The response built after the wait, by enumerating the two maps. *)
Definition buildResponse (s : State) : QueryStreamResponse :=
  mkQueryStreamResponse
    ((map_to_list (hashToChunkseries s)).*2)
    ((map_to_list (hashToTimeSeries s)).*2).

(** The state after [wg.Add(2)] and [go func() {...}()], on entering [Do];
    [pending] lists, for each replica, the sends its callback will make. *)
Definition initial (pending : list (list Push)) : State :=
  mkState [] [] (length pending) ∅ ∅ 2 AggSelect MainDo pending None None.

Definition allReturned (s : State) : bool :=
  forallb (λ p, match p with [] => true | _ => false end) (replicas s).

Definition setChannels (s : State) (cs : list (list TimeSeriesChunk))
    (ts : list (list TimeSeries)) (reps : list (list Push)) : State :=
  mkState cs ts (capacity s) (hashToChunkseries s) (hashToTimeSeries s)
    (wg s) (aggregator s) (main s) reps (doErr s) (returned s).

(** One step of the system under a choice of the scheduler; [None] when
    the chosen party cannot move. *)
Definition step (c : Choice) (s : State) : option State :=
  match c with
  | ReplicaSends i =>
    (* a send on a buffered channel completes while the buffer has room *)
    match replicas s !! i with
    | Some (PushCS batch :: rest) =>
      if decide (length (chCS s) < capacity s)%nat
      then Some (setChannels s (chCS s ++ [batch]) (chTS s) (<[i := rest]> (replicas s)))
      else None
    | Some (PushTS batch :: rest) =>
      if decide (length (chTS s) < capacity s)%nat
      then Some (setChannels s (chCS s) (chTS s ++ [batch]) (<[i := rest]> (replicas s)))
      else None
    | _ => None
    end
  | DoReturns err =>
    (* [Do] returns when its quorum policy is settled: with every callback
       returned, or earlier *)
    if decide (main s = MainDo)
    then Some (mkState (chCS s) (chTS s) (capacity s) (hashToChunkseries s)
                 (hashToTimeSeries s) (wg s) (aggregator s) MainSendDone
                 (replicas s) err (returned s))
    else None
  | AggRecvCS =>
    match aggregator s, chCS s with
    | AggSelect, cs :: queue =>
      Some (mkState queue (chTS s) (capacity s)
              (foldl addChunkSeries (hashToChunkseries s) cs)
              (hashToTimeSeries s) (wg s) AggSelect (main s) (replicas s)
              (doErr s) (returned s))
    | _, _ => None
    end
  | AggRecvTS =>
    match aggregator s, chTS s with
    | AggSelect, ts :: queue =>
      Some (mkState (chCS s) queue (capacity s) (hashToChunkseries s)
              (foldl addTimeSeries (hashToTimeSeries s) ts)
              (wg s) AggSelect (main s) (replicas s) (doErr s) (returned s))
    | _, _ => None
    end
  | AggRecvDone =>
    (* [doneCh] is unbuffered: the receive pairs with the blocked send,
       the aggregator returns and its deferred [wg.Done()] runs *)
    match aggregator s, main s with
    | AggSelect, MainSendDone =>
      Some (mkState (chCS s) (chTS s) (capacity s) (hashToChunkseries s)
              (hashToTimeSeries s) (wg s - 1) AggReturned MainWait
              (replicas s) (doErr s) (returned s))
    | _, _ => None
    end
  | WaitReturns =>
    if decide (main s = MainWait) then
      if decide (wg s = 0)
      then Some (mkState (chCS s) (chTS s) (capacity s) (hashToChunkseries s)
                   (hashToTimeSeries s) (wg s) (aggregator s) MainClose
                   (replicas s) (doErr s) (returned s))
      else None
    else None
  | Finish =>
    if decide (main s = MainClose)
    then Some (mkState (chCS s) (chTS s) (capacity s) (hashToChunkseries s)
                 (hashToTimeSeries s) (wg s) (aggregator s) MainReturned
                 (replicas s) (doErr s)
                 (Some match doErr s with
                       | Some err => inl err
                       | None => inr (buildResponse s)
                       end))
    else None
  end.

(** A schedule, run from a state. *)
Fixpoint run (schedule : list Choice) (s : State) : option State :=
  match schedule with
  | [] => Some s
  | c :: schedule' =>
    match step c s with
    | Some s' => run schedule' s'
    | None => None
    end
  end.

Definition reachable (pending : list (list Push)) (s : State) : Prop :=
  ∃ schedule, run schedule (initial pending) = Some s.

(** The identity keys of the entries of a response. *)
Definition chunkseriesKeys (r : QueryStreamResponse) : list string :=
  (λ series, LabelsToKeyString (csLabels series)) <$> rChunkseries r.
Definition timeseriesKeys (r : QueryStreamResponse) : list string :=
  (λ series, LabelsToKeyString (tLabels series)) <$> rTimeseries r.

(** The accumulation maps keep every entry under the key of its labels. *)
Definition keyedCS (m : gmap string TimeSeriesChunk) : Prop :=
  ∀ k e, m !! k = Some e → LabelsToKeyString (csLabels e) = k.
Definition keyedTS (m : gmap string TimeSeries) : Prop :=
  ∀ k e, m !! k = Some e → LabelsToKeyString (tLabels e) = k.

Definition keyed (s : State) : Prop :=
  keyedCS (hashToChunkseries s) ∧ keyedTS (hashToTimeSeries s).

(** The counter is 2 until the aggregator returns and 1 from then on;
    [queryIngesterStream] is in [Do] or at the send while the aggregator
    runs, and in [wg.Wait()] once it has returned. *)
Definition stuck_or_running (s : State) : Prop :=
  returned s = None
  ∧ ((aggregator s = AggSelect ∧ wg s = 2
      ∧ (main s = MainDo ∨ main s = MainSendDone))
     ∨ (aggregator s = AggReturned ∧ wg s = 1 ∧ main s = MainWait)).
End Defs.
End Engine.

(** ** The replica selector for metadata: [GetIngestersForMetadata] *)

Module MetadataSelector.
Import Selector.
Section Defs.
Context {Ctx Ring ReplicationSet : Type}.
Context (TenantID : Ctx → error + string).
Context (ShardingStrategyShuffle : string).
Context (IngestionTenantShardSize : string → Z).
Context (ShuffleShardWithLookback : Ring → string → Z → Z → Z → Ring).
Context (GetReplicationSetForOperation : Ring → Operation → error + ReplicationSet).

(** The function body, with [now] for [time.Now()]. *)
Definition GetIngestersForMetadata (d : @Distributor Ring) (ctx : Ctx) (now : Z)
    : error + ReplicationSet :=
  match TenantID ctx with
  | inl err => inl err
  | inr userID =>
    let shuffled :=
      if decide (ShardingStrategy (cfg d) = ShardingStrategyShuffle) then
        let shardSize := IngestionTenantShardSize userID in
        let lookbackPeriod := ShuffleShardingLookbackPeriod (cfg d) in
        if (shardSize >? 0) && (lookbackPeriod >? 0) then
          Some (GetReplicationSetForOperation
                  (ShuffleShardWithLookback (ingestersRing d) userID shardSize
                     lookbackPeriod now) Read)
        else None
      else None in
    match shuffled with
    | Some r => r
    | None => GetReplicationSetForOperation (ingestersRing d) Read
    end
  end.
End Defs.
End MetadataSelector.

(** ** The data a list of channel sends carries *)

Module Forwarding.
Import Callback.

(** The chunk-series, and the time-series, of the batches of a list of
    sends, in order. *)
Definition chunkSeriesOf (ps : list Push) : list TimeSeriesChunk :=
  concat ((λ p, match p with PushCS batch => batch | PushTS _ => [] end) <$> ps).
Definition timeSeriesOf (ps : list Push) : list TimeSeries :=
  concat ((λ p, match p with PushTS batch => batch | PushCS _ => [] end) <$> ps).

Definition nonEmptyBatch (p : Push) : Prop :=
  match p with
  | PushCS batch => batch ≠ []
  | PushTS batch => batch ≠ []
  end.

End Forwarding.

(** ** What the aggregator holds, by the series it received *)

Module Aggregated.
Import Callback Engine.

(** The entry of [hashToChunkseries] for a key, from the chunk-series with
    that key in the order they were received: the labels of the last one
    and the chunks of all of them, one list after the other. *)
Definition chunkEntry (arrived : list TimeSeriesChunk) : option TimeSeriesChunk :=
  match last arrived with
  | None => None
  | Some latest =>
    Some (mkTimeSeriesChunk (csLabels latest) (concat (csChunks <$> arrived)))
  end.

(** The entry of [hashToTimeSeries] for a key, likewise: the labels of the
    last series, the samples of all of them merged one after the other, and
    no exemplars. *)
Definition timeEntry (arrived : list TimeSeries) : option TimeSeries :=
  match last arrived with
  | None => None
  | Some latest =>
    Some (mkTimeSeries (tLabels latest)
            (foldl mergeSamples [] (tSamples <$> arrived)) [])
  end.

Section Defs.
Context (LabelsToKeyString : Labels → string).

(** The two maps after the aggregator has received the given batches from
    [chCS], and from [chTS], in that order. *)
Definition aggregateCS (received : list (list TimeSeriesChunk))
    : gmap string TimeSeriesChunk :=
  foldl (λ m cs, foldl (addChunkSeries LabelsToKeyString) m cs) ∅ received.
Definition aggregateTS (received : list (list TimeSeries))
    : gmap string TimeSeries :=
  foldl (λ m ts, foldl (addTimeSeries LabelsToKeyString) m ts) ∅ received.

(** Time-series whose samples are strictly ascending by timestamp, in a
    batch, on a channel, in the sends a callback has left, and in the map. *)
Definition ascendingSeries (series : TimeSeries) : Prop :=
  Merge.strict sTimestampMs (tSamples series).
Definition ascendingPush (p : Push) : Prop :=
  match p with
  | PushTS batch => Forall ascendingSeries batch
  | PushCS _ => True
  end.
Definition ascendingState (s : State) : Prop :=
  Forall (Forall ascendingPush) (replicas s)
  ∧ Forall (Forall ascendingSeries) (chTS s)
  ∧ ∀ k e, hashToTimeSeries s !! k = Some e → ascendingSeries e.
End Defs.
End Aggregated.

(** ** Where the batches of a streaming query are *)

Module Accounting.
Import Callback Engine Aggregated.

(** The batches for [chCS], and for [chTS], among a list of sends. *)
Definition batchesCS (ps : list Push) : list (list TimeSeriesChunk) :=
  omap (λ p, match p with PushCS batch => Some batch | PushTS _ => None end) ps.
Definition batchesTS (ps : list Push) : list (list TimeSeries) :=
  omap (λ p, match p with PushTS batch => Some batch | PushCS _ => None end) ps.

Section Defs.
Context (LabelsToKeyString : Labels → string).

(** Every batch the callbacks were to send is in one of three places: the
    aggregator has received it (and the maps are what receiving those
    batches in that order gives), it is queued on its channel, or its
    callback has not sent it yet. *)
Definition accounted (pending : list (list Push)) (s : State) : Prop :=
  ∃ receivedCS receivedTS,
    hashToChunkseries s = aggregateCS LabelsToKeyString receivedCS
    ∧ hashToTimeSeries s = aggregateTS LabelsToKeyString receivedTS
    ∧ receivedCS ++ chCS s ++ batchesCS (concat (replicas s))
      ≡ₚ batchesCS (concat pending)
    ∧ receivedTS ++ chTS s ++ batchesTS (concat (replicas s))
      ≡ₚ batchesTS (concat pending).
End Defs.
End Accounting.

(** ** The index page of the API (pkg/api/handlers.go) *)

Module IndexPage.

(** [IndexPageContent.content]: sections to path to description.  The
    methods hold the mutex from entry to return, so each is one step. *)
Abbreviation Content := (gmap string (gmap string string)).

Definition newIndexPageContent : Content := ∅.

(** [AddLink]: the section's map is made when it is missing, and the
    assignment to [sectionMap[path]] updates the map the content holds. *)
Definition AddLink (pc : Content) (section path description : string) : Content :=
  let sectionMap :=
    match pc !! section with
    | Some sectionMap => sectionMap
    | None => ∅
    end in
  <[section := <[path := description]> sectionMap]> pc.

(** [GetContent]: the two nested [for ... range] loops that copy the
    content entry by entry into fresh maps. *)
Definition copySection (v : gmap string string) : gmap string string :=
  map_fold (λ smK smV sm, <[smK := smV]> sm) ∅ v.
Definition GetContent (pc : Content) : Content :=
  map_fold (λ k v result, <[k := copySection v]> result) ∅ pc.

(** A link: section, path, description; the content after a run of
    [AddLink] calls on a new page; the description shown for a path. *)
Definition Link : Type := string * string * string.
Definition addLinks (links : list Link) : Content :=
  foldl (λ pc '(section, path, description), AddLink pc section path description)
    newIndexPageContent links.
Definition linkOf (content : Content) (section path : string) : option string :=
  content !! section ≫= λ sectionMap, sectionMap !! path.

(** No section of the content is an empty map. *)
Definition noEmptySection (pc : Content) : Prop :=
  ∀ section sectionMap, pc !! section = Some sectionMap → sectionMap ≠ ∅.

End IndexPage.

(** ** What an accumulated entry holds, by the series it was built from *)

Module Arrival.

(** The entry [mergeExemplarQueryResponses] holds for a key, from the
    series with that key in the order they arrived: the first one, with the
    exemplars of the later ones merged in one after the other. *)
Definition exemplarEntry (arrived : list TimeSeries) : option TimeSeries :=
  match arrived with
  | [] => None
  | first :: later =>
    Some (mkTimeSeries (tLabels first) (tSamples first)
            (foldl mergeExemplarSets (tExemplars first) (tExemplars <$> later)))
  end.

(** The entry [queryIngesters] holds for a fingerprint, from the streams
    with that fingerprint in the order they arrived: the label set of the
    first one and the values of all merged one after the other, starting
    from the empty slice. *)
Definition streamEntry
    (MergeSampleSets : list Matrix.SamplePair → list Matrix.SamplePair →
                       list Matrix.SamplePair)
    (arrived : list Matrix.SampleStream) : option Matrix.SampleStream :=
  match arrived with
  | [] => None
  | first :: _ =>
    Some (Matrix.mkSampleStream (Matrix.ssMetric first)
            (foldl MergeSampleSets [] (Matrix.ssValues <$> arrived)))
  end.

(** The series of all responses, and the streams of all results, in the
    order the nested loops visit them. *)
Definition allSeries (results : list ExemplarQueryResponse) : list TimeSeries :=
  concat (xTimeseries <$> results).

End Arrival.

(** ** Sample inputs *)

(** Two sample sequences that share the timestamp 0. *)
Definition wA : list Sample :=
  [mkSample (S754_finite false 1 0) 0; mkSample (S754_finite false 1 1) 60000].
Definition wB : list Sample :=
  [mkSample S754_nan 0; mkSample (S754_zero false) 30000].

(** A sequence that agrees with [wA] at the timestamp they share. *)
Definition wC : list Sample :=
  [mkSample (S754_finite false 1 0) 0; mkSample (S754_zero false) 30000].

(** Two exemplars with one timestamp and different label sets and values. *)
Definition exA : Exemplar := mkExemplar [("trace_id", "a")] (S754_finite false 1 0) 10.
Definition exB : Exemplar := mkExemplar [("trace_id", "b")] (S754_finite false 1 1) 10.
Definition wEa : list Exemplar := [exA; mkExemplar [] (S754_zero false) 20].
Definition wEb : list Exemplar := [exB; mkExemplar [] (S754_zero true) 15].

(** A message that breaks the series limit through its chunk-series and
    the chunk-bytes limit as well, under the counting limiter. *)
Definition wLimits : Callback.Limits := Callback.mkLimits 10 1 0 100.
Definition wResp : QueryStreamResponse :=
  mkQueryStreamResponse
    [mkTimeSeriesChunk [("__name__", "up")] [mkChunk 0 10 1 [Byte.x01]];
     mkTimeSeriesChunk [("__name__", "down")] [mkChunk 0 10 1 [Byte.x02]]]
    [].
Definition wWorld : @Callback.World Callback.Counters :=
  Callback.mkWorld (Callback.mkCounters 0 [] 0 0) (Callback.mkMetrics ∅ ∅) [].

(** A run in which two replicas each send a batch for one label set and
    the aggregator folds both before the stop signal. *)
Definition wKey (ls : Labels) : string :=
  match ls with
  | (_, v) :: _ => v
  | [] => EmptyString
  end.
Definition wSeries (data : Byte.byte) : TimeSeriesChunk :=
  mkTimeSeriesChunk [("__name__", "up")] [mkChunk 0 10 1 [data]].
Definition wPending : list (list Callback.Push) :=
  [[Callback.PushCS [wSeries Byte.x01]]; [Callback.PushCS [wSeries Byte.x02]]].
Definition wSchedule : list Engine.Choice :=
  [Engine.ReplicaSends 0; Engine.ReplicaSends 1; Engine.AggRecvCS; Engine.AggRecvCS;
   Engine.DoReturns None; Engine.AggRecvDone].
Definition wState : Engine.State :=
  default (Engine.initial []) (Engine.run wKey wSchedule (Engine.initial wPending)).

(** A selector over a ring of named replicas: the subring adds the tenant's
    name, the shard key picks the first replica. *)
Definition wTenant (ctx : option string) : error + string :=
  match ctx with
  | Some userID => inr userID
  | None => inl (OtherError "no org id")
  end.
Definition wSelect : Selector.Distributor → option string → Z →
    list Selector.Matcher → error + list string :=
  Selector.GetIngestersForQuery (Ring := list string) wTenant "shuffle-sharding"
    (λ _, 3)
    (λ ring userID _ _ _, ring ++ [userID])
    (λ ring _, inr ring)
    (λ ring _ _, inr (take 1 ring))
    (λ _ name, Z.of_nat (String.length name))
    (λ matchers, head (filter (λ m, Selector.mName m = "__name__") matchers)).

(** Two exemplar responses: one replica knows "up", the other "up" and
    "down". *)
Definition wRespUp : ExemplarQueryResponse :=
  mkExemplarQueryResponse
    [mkTimeSeries [("__name__", "up")] [] [mkExemplar [] (S754_zero false) 10]].
Definition wRespBoth : ExemplarQueryResponse :=
  mkExemplarQueryResponse
    [mkTimeSeries [("__name__", "up")] [] [mkExemplar [] (S754_zero false) 20];
     mkTimeSeries [("__name__", "down")] [] [mkExemplar [] (S754_zero false) 5]].

(** Two replicas' matrices over two label sets that a hash by the number
    of labels tells apart; values are merged by appending. *)
Definition wHash (m : Matrix.Metric) : Z := Z.of_nat (size m).
Definition wMetricUp : Matrix.Metric := {[ "__name__" := "up" ]}.
Definition wMetricUpJob : Matrix.Metric := {[ "__name__" := "up"; "job" := "a" ]}.
Definition wMatrices : list Matrix.Matrix :=
  [[Matrix.mkSampleStream wMetricUp [Matrix.mkSamplePair 0 (S754_zero false)]];
   [Matrix.mkSampleStream wMetricUpJob [Matrix.mkSamplePair 0 (S754_zero false)];
    Matrix.mkSampleStream wMetricUp [Matrix.mkSamplePair 5 (S754_zero false)]]].

(** Two label sets that differ in the value of "job" and have one
    fingerprint, and a stream for each as two replicas return them. *)
Definition wMetricJobA : Matrix.Metric :=
  {[ "__name__" := "up"; "job" := "09a2387425de5993" ]}.
Definition wMetricJobB : Matrix.Metric :=
  {[ "__name__" := "up"; "job" := "f368c5c3ba302daf" ]}.
Definition wStreamJobA : Matrix.SampleStream :=
  Matrix.mkSampleStream wMetricJobA [Matrix.mkSamplePair 1000 (S754_zero false)].
Definition wStreamJobB : Matrix.SampleStream :=
  Matrix.mkSampleStream wMetricJobB [Matrix.mkSamplePair 2000 (S754_finite false 1 0)].

(** Two replicas that each send a batch of time-series for "up". *)
Definition wPendingTS : list (list Callback.Push) :=
  [[Callback.PushTS [mkTimeSeries [("__name__", "up")] wA []]];
   [Callback.PushTS [mkTimeSeries [("__name__", "up")] wB []]]].
Definition wScheduleTS : list Engine.Choice :=
  [Engine.ReplicaSends 0; Engine.AggRecvTS; Engine.ReplicaSends 1; Engine.AggRecvTS].
Definition wStateTS : Engine.State :=
  default (Engine.initial [])
    (Engine.run wKey wScheduleTS (Engine.initial wPendingTS)).

(** * Theorems *)

(** ** The merge loop *)

Module MergeFacts.
Import Merge.
Section Facts.
Context {A : Type} (ts : A → Z).

Local Abbreviation merge := (Merge.merge ts).
Local Abbreviation loop := (Merge.loop ts).
Local Abbreviation run := (Merge.run ts).
Local Abbreviation tss := (Merge.tss ts).
Local Abbreviation strict := (Merge.strict ts).

Lemma merge_nil_l (b : list A) : merge [] b = b.
Proof. by destruct b. Qed.

Lemma merge_nil_r (a : list A) : merge a [] = a.
Proof. by destruct a. Qed.

Lemma merge_cons (x y : A) (a b : list A) :
  merge (x :: a) (y :: b) =
    if ts x <? ts y then x :: merge a (y :: b)
    else if ts x >? ts y then y :: merge (x :: a) b
    else x :: merge a b.
Proof. reflexivity. Qed.

(** With enough fuel the index loop reaches the end of one slice, and the
    slice it has built, followed by the two remainders, is the merge of the
    suffixes it started from. *)
Lemma loop_merge (fuel : nat) (a b : list A) (i j : nat) (res : list A) :
  (length a - i + (length b - j) ≤ fuel)%nat →
  let '(i', j', res') := loop fuel a b i j res in
  (res' ++ drop i' a) ++ drop j' b = res ++ merge (drop i a) (drop j b).
Proof.
  revert i j res. induction fuel as [|fuel IH]; intros i j res Hf.
  - cbn [Merge.loop].
    assert (length a ≤ i)%nat by lia. assert (length b ≤ j)%nat by lia.
    rewrite !drop_ge by done. by rewrite !app_nil_r.
  - cbn [Merge.loop].
    destruct (a !! i) as [x|] eqn:Ha; last first.
    { apply lookup_ge_None in Ha. rewrite (drop_ge a) by done.
      by rewrite app_nil_r, merge_nil_l. }
    destruct (b !! j) as [y|] eqn:Hb; last first.
    { apply lookup_ge_None in Hb. rewrite (drop_ge b) by done.
      by rewrite app_nil_r, merge_nil_r. }
    pose proof (lookup_lt_Some _ _ _ Ha). pose proof (lookup_lt_Some _ _ _ Hb).
    rewrite (drop_S a x i Ha), (drop_S b y j Hb), merge_cons.
    destruct (ts x <? ts y); [|destruct (ts x >? ts y)].
    + specialize (IH (S i) j (res ++ [x])).
      destruct (loop fuel a b (S i) j (res ++ [x])) as [[i' j'] res'].
      rewrite IH by lia. rewrite (drop_S b y j Hb). by rewrite <- app_assoc.
    + specialize (IH i (S j) (res ++ [y])).
      destruct (loop fuel a b i (S j) (res ++ [y])) as [[i' j'] res'].
      rewrite IH by lia. rewrite (drop_S a x i Ha). by rewrite <- app_assoc.
    + specialize (IH (S i) (S j) (res ++ [x])).
      destruct (loop fuel a b (S i) (S j) (res ++ [x])) as [[i' j'] res'].
      rewrite IH by lia. by rewrite <- app_assoc.
Qed.

Lemma run_merge (a b : list A) : run a b = merge a b.
Proof.
  unfold Merge.run.
  pose proof (loop_merge (length a + length b) a b 0 0 []) as H.
  destruct (loop (length a + length b) a b 0 0 []) as [[i j] res].
  rewrite H by lia. by rewrite !drop_0.
Qed.

Lemma merge_same (a : list A) : merge a a = a.
Proof.
  induction a as [|x a IH]; [done|].
  rewrite merge_cons, Z.ltb_irrefl.
  replace (ts x >? ts x) with false by (symmetry; rewrite Z.gtb_ltb; apply Z.ltb_irrefl).
  by rewrite IH.
Qed.

(** Nothing is invented, and nothing of the left slice is lost; neither
    needs the inputs sorted. *)
Lemma elem_of_merge_inv (e : A) (a b : list A) :
  e ∈ merge a b → e ∈ a ∨ e ∈ b.
Proof.
  revert b. induction a as [|x a IHa]; intros b.
  { rewrite merge_nil_l. auto. }
  induction b as [|y b IHb].
  { rewrite merge_nil_r. auto. }
  rewrite merge_cons.
  destruct (ts x <? ts y); [|destruct (ts x >? ts y)];
    rewrite elem_of_cons; intros [->|H].
  - left. left.
  - destruct (IHa _ H); [left; by right | by right].
  - right. left.
  - destruct (IHb H); [by left | right; by right].
  - left. left.
  - destruct (IHa _ H); [left; by right | right; by right].
Qed.

Lemma elem_of_merge_l (e : A) (a b : list A) : e ∈ a → e ∈ merge a b.
Proof.
  revert b. induction a as [|x a IHa]; intros b; [by intros ?%elem_of_nil|].
  induction b as [|y b IHb]; [by rewrite merge_nil_r|].
  rewrite merge_cons. intros He.
  destruct (ts x <? ts y); [|destruct (ts x >? ts y)].
  - apply elem_of_cons in He as [->|He]; [left | right; by apply IHa].
  - right. by apply IHb.
  - apply elem_of_cons in He as [->|He]; [left | right; by apply IHa].
Qed.

Lemma strict_cons_inv (x : A) (l : list A) :
  strict (x :: l) → strict l ∧ Forall (λ y, ts x < ts y) l.
Proof. intros H. by apply StronglySorted_inv in H. Qed.

Lemma strict_above (x e : A) (l : list A) :
  strict (x :: l) → e ∈ l → ts x < ts e.
Proof.
  intros [_ H]%strict_cons_inv He.
  by apply (proj1 (Forall_forall _ _) H).
Qed.

Lemma strict_head_fresh (x : A) (l : list A) :
  strict (x :: l) → ts x ∉ tss l.
Proof.
  intros Hs (e & Heq & He)%list_elem_of_fmap.
  pose proof (strict_above _ _ _ Hs He). lia.
Qed.

(** What the merge of two strictly ascending slices contains: all of the
    left one, and of the right one what the left one has no timestamp for. *)
Lemma elem_of_merge (e : A) (a b : list A) :
  strict a → strict b →
  e ∈ merge a b ↔ e ∈ a ∨ (e ∈ b ∧ ts e ∉ tss a).
Proof.
  revert b. induction a as [|x a IHa]; intros b Ha Hb.
  { rewrite merge_nil_l. split; [|by intros [?%elem_of_nil|[? _]]].
    intros He. right. split; [done|]. by intros ?%elem_of_nil. }
  induction b as [|y b IHb].
  { rewrite merge_nil_r. split; [auto|]. by intros [?|[?%elem_of_nil _]]. }
  pose proof (strict_cons_inv _ _ Ha) as [Ha' _].
  pose proof (strict_cons_inv _ _ Hb) as [Hb' _].
  pose proof (λ e', strict_above x e' a Ha) as Fa.
  pose proof (λ e', strict_above y e' b Hb) as Fb.
  specialize (IHa b Ha' Hb') as IHab. specialize (IHa (y :: b) Ha' Hb).
  specialize (IHb Hb').
  rewrite merge_cons. unfold Merge.tss in *.
  rewrite fmap_cons in *.
  rewrite !elem_of_cons in *.
  setoid_rewrite list_elem_of_fmap. setoid_rewrite list_elem_of_fmap in IHa.
  setoid_rewrite list_elem_of_fmap in IHb.
  setoid_rewrite list_elem_of_fmap in IHab.
  destruct (Z.ltb_spec (ts x) (ts y)) as [Hlt|Hge];
    [|destruct (Z.gtb_spec (ts x) (ts y)) as [Hgt|Hle]];
    rewrite elem_of_cons.
  - rewrite IHa. clear IHa IHb IHab. split.
    + intros [->|[He|[[->|He] Hn]]]; [by left; left | by left; right | |].
      * right. split; [by left|]. intros [?|?]; [lia|done].
      * right. split; [by right|]. intros [Heq|?]; [|done].
        specialize (Fb _ He). lia.
    + intros [[->|He]|[He Hn]]; [by left | by right; left |].
      right. right. split; [done|]. intros ?. apply Hn. by right.
  - rewrite IHb. clear IHa IHb IHab. split.
    + intros [->|[He|[He Hn]]]; [|by left|by right; split; [right|]].
      right. split; [by left|]. intros [Heq|(e' & Heq & He')]; [lia|].
      specialize (Fa _ He'). lia.
    + intros [He|[[->|He] Hn]]; [by right; left | by left |].
      right. right. by split.
  - assert (ts x = ts y) as Heq by lia.
    rewrite IHab. clear IHa IHb IHab. split.
    + intros [->|[He|[He Hn]]]; [by left; left | by left; right |].
      right. split; [by right|]. intros [Heq'|?]; [|done].
      specialize (Fb _ He). lia.
    + intros [[->|He]|[[->|He] Hn]]; [by left | by right; left | |].
      * exfalso. apply Hn. left. done.
      * right. right. split; [done|]. intros ?. apply Hn. by right.
Qed.

Lemma strict_merge (a b : list A) : strict a → strict b → strict (merge a b).
Proof.
  revert b. induction a as [|x a IHa]; intros b Ha Hb.
  { by rewrite merge_nil_l. }
  induction b as [|y b IHb].
  { by rewrite merge_nil_r. }
  pose proof (strict_cons_inv _ _ Ha) as [Ha' Fa].
  pose proof (strict_cons_inv _ _ Hb) as [Hb' Fb].
  rewrite merge_cons.
  destruct (Z.ltb_spec (ts x) (ts y)) as [Hlt|Hge].
  - constructor; [by apply IHa|].
    apply Forall_forall. intros e [He|He]%elem_of_merge_inv.
    + by apply (strict_above _ _ _ Ha).
    + apply elem_of_cons in He as [->|He]; [done|].
      pose proof (strict_above _ _ _ Hb He). lia.
  - destruct (Z.gtb_spec (ts x) (ts y)) as [Hgt|Hle].
    + constructor; [by apply IHb|].
      apply Forall_forall. intros e [He|He]%elem_of_merge_inv.
      * apply elem_of_cons in He as [->|He]; [lia|].
        pose proof (strict_above _ _ _ Ha He). lia.
      * by apply (strict_above _ _ _ Hb).
    + constructor; [by apply IHa|].
      apply Forall_forall. intros e [He|He]%elem_of_merge_inv.
      * by apply (strict_above _ _ _ Ha).
      * pose proof (strict_above _ _ _ Hb He). lia.
Qed.

(** The two readings of "sorted ascending, no duplicate timestamp". *)
Lemma strict_of_ascending (l : list A) :
  Merge.ascending ts l → Merge.distinct ts l → strict l.
Proof.
  unfold Merge.ascending, Merge.distinct, Merge.tss.
  induction l as [|x l IH]; [constructor|].
  rewrite fmap_cons. intros Hs Hd.
  apply Sorted_StronglySorted in Hs; [|intros ???; lia].
  apply StronglySorted_inv in Hs as [Hs Hf].
  apply NoDup_cons in Hd as [Hx Hd].
  constructor.
  - apply IH; [by apply StronglySorted_Sorted|done].
  - apply Forall_forall. intros e He.
    assert (ts e ∈ ts <$> l) as Hin by (apply list_elem_of_fmap; eauto).
    pose proof (proj1 (Forall_forall _ _) Hf _ Hin).
    assert (ts x ≠ ts e) by (intros Heq; apply Hx; by rewrite Heq).
    lia.
Qed.

Lemma strict_ascending (l : list A) : strict l → Merge.ascending ts l.
Proof.
  unfold Merge.ascending, Merge.tss. intros H. apply StronglySorted_Sorted.
  induction H as [|x l Hs IH Hf]; [constructor|].
  rewrite fmap_cons. constructor; [done|].
  apply Forall_fmap. eapply Forall_impl; [exact Hf|]. intros y Hy. unfold compose. simpl in Hy. lia.
Qed.

Lemma strict_distinct (l : list A) : strict l → Merge.distinct ts l.
Proof.
  unfold Merge.distinct. intros H.
  induction l as [|x l IH]; [constructor|].
  unfold Merge.tss. rewrite fmap_cons. apply NoDup_cons. split.
  - by apply strict_head_fresh.
  - apply IH. by apply strict_cons_inv in H as [? _].
Qed.

Lemma tss_merge (t : Z) (a b : list A) :
  strict a → strict b → t ∈ tss (merge a b) ↔ t ∈ tss a ∨ t ∈ tss b.
Proof.
  intros Ha Hb. unfold Merge.tss. rewrite !list_elem_of_fmap. split.
  - intros (e & -> & He). apply elem_of_merge_inv in He as [?|?]; eauto.
  - intros [(e & -> & He)|(e & -> & He)].
    + exists e. split; [done|]. by apply elem_of_merge_l.
    + destruct (decide (ts e ∈ tss a)) as [Hin|Hn].
      * apply list_elem_of_fmap in Hin as (e' & Heq & He').
        exists e'. split; [done|]. by apply elem_of_merge_l.
      * exists e. split; [done|]. apply elem_of_merge; auto.
Qed.

End Facts.
End MergeFacts.

(** ** The sample merger *)

Section SampleMerger.
Import Merge MergeFacts.

Local Abbreviation ts := sTimestampMs.

Lemma sameSamples_from_tss (a b : list Sample) :
  length a = length b → sameSamples_from a b = true → tss ts a = tss ts b.
Proof.
  revert b. induction a as [|x a IH]; intros [|y b] Hlen; try done.
  cbn [sameSamples_from]. destruct (sample_eqb x y) eqn:Heq; [|done].
  cbn [negb]. intros H. unfold tss in *. rewrite !fmap_cons.
  apply andb_prop in Heq as [_ Ht]. apply Z.eqb_eq in Ht.
  f_equal; [done|]. apply IH; [|done]. simpl in Hlen. lia.
Qed.

Lemma sameSamples_tss (a b : list Sample) :
  sameSamples a b = true → tss ts a = tss ts b.
Proof.
  unfold sameSamples. destruct (Nat.eqb_spec (length a) (length b)); [|done].
  cbn [negb]. by apply sameSamples_from_tss.
Qed.

Lemma strict_inj {A : Type} (f : A → Z) (l : list A) (x y : A) :
  strict f l → x ∈ l → y ∈ l → f x = f y → x = y.
Proof.
  induction l as [|z l IH]; [by intros _ ?%elem_of_nil|].
  intros Hs Hx Hy Heq.
  pose proof (strict_cons_inv _ _ _ Hs) as [Hs' _].
  apply elem_of_cons in Hx as [->|Hx]; apply elem_of_cons in Hy as [->|Hy].
  - done.
  - pose proof (strict_above _ _ _ _ Hs Hy). lia.
  - pose proof (strict_above _ _ _ _ Hs Hx). lia.
  - by apply IH.
Qed.

(** On an empty left slice the merge hands back the right one, which is
    why an empty accumulated slice needs no case of its own. *)
Lemma mergeSamples_nil_l (b : list Sample) : mergeSamples [] b = b.
Proof.
  unfold mergeSamples, sameSamples. destruct b as [|y b]; [done|].
  simpl. by rewrite run_merge.
Qed.

Example mergeSamples_left_wins :
  mergeSamples wA wB =
    [mkSample (S754_finite false 1 0) 0; mkSample (S754_zero false) 30000;
     mkSample (S754_finite false 1 1) 60000].
Proof. reflexivity. Qed.

(** A NaN value differs from itself, so the fast path is not taken; the
    merge still gives the slice back. *)
Example mergeSamples_nan :
  sameSamples [mkSample S754_nan 5] [mkSample S754_nan 5] = false
  ∧ mergeSamples [mkSample S754_nan 5] [mkSample S754_nan 5] = [mkSample S754_nan 5].
Proof. split; reflexivity. Qed.

(** C1. For two sequences of samples, each sorted ascending by timestamp
    and free of duplicate timestamps, [mergeSamples A B] is sorted
    ascending by timestamp, has no two samples with one timestamp, has as
    timestamps exactly those of [A] and of [B], carries for every sample of
    [A] (so also at a timestamp [B] has too) that sample and no other
    sample with its timestamp, and [mergeSamples A A] is [A]. *)
Theorem mergeSamples_sorted_dedup_union (A B : list Sample) :
  ascending ts A → distinct ts A → ascending ts B → distinct ts B →
  ascending ts (mergeSamples A B)
  ∧ distinct ts (mergeSamples A B)
  ∧ (∀ t, t ∈ tss ts (mergeSamples A B) ↔ t ∈ tss ts A ∨ t ∈ tss ts B)
  ∧ (∀ s, s ∈ A →
       s ∈ mergeSamples A B
       ∧ ∀ s', s' ∈ mergeSamples A B → ts s' = ts s → s' = s)
  ∧ mergeSamples A A = A.
Proof.
  intros HaA HdA HaB HdB.
  pose proof (strict_of_ascending ts A HaA HdA) as SA.
  pose proof (strict_of_ascending ts B HaB HdB) as SB.
  assert (strict ts (mergeSamples A B)) as SR.
  { unfold mergeSamples. destruct (sameSamples A B); [done|].
    rewrite run_merge. by apply strict_merge. }
  assert (∀ s, s ∈ A → s ∈ mergeSamples A B) as Hin.
  { intros s Hs. unfold mergeSamples. destruct (sameSamples A B); [done|].
    rewrite run_merge. by apply elem_of_merge_l. }
  split; [by apply strict_ascending|].
  split; [by apply strict_distinct|].
  split; [|split].
  - intros t. unfold mergeSamples.
    destruct (sameSamples A B) eqn:Hsame.
    + apply sameSamples_tss in Hsame. rewrite <- Hsame. tauto.
    + rewrite run_merge. by apply tss_merge.
  - intros s Hs. split; [by apply Hin|].
    intros s' Hs' Heq. eapply strict_inj; eauto.
  - unfold mergeSamples. destruct (sameSamples A A); [done|].
    rewrite run_merge. apply merge_same.
Qed.


(** The theorem at two sequences that share the timestamp 0. *)
Lemma mergeSamples_sorted_dedup_union_witness :
  ascending ts (mergeSamples wA wB)
  ∧ distinct ts (mergeSamples wA wB)
  ∧ (∀ t, t ∈ tss ts (mergeSamples wA wB) ↔ t ∈ tss ts wA ∨ t ∈ tss ts wB)
  ∧ (∀ s, s ∈ wA →
       s ∈ mergeSamples wA wB
       ∧ ∀ s', s' ∈ mergeSamples wA wB → ts s' = ts s → s' = s)
  ∧ mergeSamples wA wA = wA.
Proof.
  apply (mergeSamples_sorted_dedup_union wA wB).
  - repeat constructor; vm_compute; discriminate.
  - unfold distinct. apply (bool_decide_unpack _). vm_compute. exact I.
  - repeat constructor; vm_compute; discriminate.
  - unfold distinct. apply (bool_decide_unpack _). vm_compute. exact I.
Defined.

End SampleMerger.

(** ** The exemplar merger *)

Section ExemplarMerger.
Import Merge MergeFacts.

Local Abbreviation ets := eTimestampMs.


(** Disjoint exemplar sets of two replicas come out in timestamp order. *)
Example mergeExemplarSets_disjoint :
  mergeExemplarSets [mkExemplar [] (S754_finite false 1 1) 20]
                    [mkExemplar [] (S754_finite false 1 0) 10]
  = [mkExemplar [] (S754_finite false 1 0) 10;
     mkExemplar [] (S754_finite false 1 1) 20].
Proof. reflexivity. Qed.

(** C4, as stated, fails: two exemplars that share a timestamp and differ
    in label set and in value are not both kept; the right one is dropped. *)
Lemma mergeExemplarSets_drops_same_timestamp :
  exA ∈ [exA] ∧ exB ∈ [exB]
  ∧ eTimestampMs exA = eTimestampMs exB
  ∧ eLabels exA ≠ eLabels exB ∧ eValue exA ≠ eValue exB
  ∧ mergeExemplarSets [exA] [exB] = [exA]
  ∧ exB ∉ mergeExemplarSets [exA] [exB].
Proof.
  assert (mergeExemplarSets [exA] [exB] = [exA]) as Hrun by reflexivity.
  split; [set_solver|]. split; [set_solver|]. split; [reflexivity|].
  split; [discriminate|]. split; [discriminate|]. split; [exact Hrun|].
  rewrite Hrun. apply not_elem_of_cons. split; [discriminate|apply not_elem_of_nil].
Qed.

(** C4, amended. The exemplar merge compares timestamps only.  It walks
    the two lists from their heads: the exemplar with the smaller timestamp
    is emitted, and when the two heads have equal timestamps the left one
    is emitted and the right one is skipped, whatever their label sets and
    values.  Every exemplar of the left list is in the output and every
    exemplar of the output comes from an input; for two lists sorted
    ascending by timestamp without duplicate timestamps the output is
    strictly ascending, and an exemplar of the right list is in it exactly
    when the left list has no exemplar with that timestamp or holds that
    very exemplar.  Without that precondition two exemplars with one
    timestamp can both come out: a right list that repeats a timestamp of
    the left list loses the first of the two exemplars only. *)
Theorem mergeExemplarSets_dedup_by_timestamp (a b : list Exemplar) :
  (∀ x a' y b',
     mergeExemplarSets (x :: a') (y :: b') =
       if ets x <? ets y then x :: mergeExemplarSets a' (y :: b')
       else if ets x >? ets y then y :: mergeExemplarSets (x :: a') b'
       else x :: mergeExemplarSets a' b')
  ∧ mergeExemplarSets a [] = a
  ∧ mergeExemplarSets [] b = b
  ∧ (∀ e, e ∈ a → e ∈ mergeExemplarSets a b)
  ∧ (∀ e, e ∈ mergeExemplarSets a b → e ∈ a ∨ e ∈ b)
  ∧ (ascending ets a → distinct ets a → ascending ets b → distinct ets b →
     strict ets (mergeExemplarSets a b)
     ∧ ∀ e, e ∈ mergeExemplarSets a b ↔
            e ∈ a ∨ (e ∈ b ∧ ets e ∉ tss ets a))
  ∧ (∀ x y y', ets x = ets y → ets y' = ets y →
       mergeExemplarSets [x] [y; y'] = [x; y']).
Proof.
  unfold mergeExemplarSets. split; [|split; [|split; [|split; [|split; [|split]]]]].
  - intros x a' y b'. by rewrite !run_merge, merge_cons.
  - by rewrite run_merge, merge_nil_r.
  - by rewrite run_merge, merge_nil_l.
  - intros e. rewrite run_merge. apply elem_of_merge_l.
  - intros e. rewrite run_merge. apply elem_of_merge_inv.
  - intros Ha Da Hb Db. rewrite run_merge.
    pose proof (strict_of_ascending ets a Ha Da).
    pose proof (strict_of_ascending ets b Hb Db).
    split; [by apply strict_merge|]. intros e. by apply elem_of_merge.
  - intros x y y' Hxy Hy'. rewrite run_merge, merge_cons.
    rewrite Z.gtb_ltb, Hxy, Z.ltb_irrefl. by rewrite merge_nil_l.
Qed.


(** The amended statement at two sorted lists that share the timestamp 10. *)
Lemma mergeExemplarSets_dedup_by_timestamp_witness :
  strict ets (mergeExemplarSets wEa wEb)
  ∧ ∀ e, e ∈ mergeExemplarSets wEa wEb ↔
         e ∈ wEa ∨ (e ∈ wEb ∧ ets e ∉ tss ets wEa).
Proof.
  apply (mergeExemplarSets_dedup_by_timestamp wEa wEb).
  - repeat constructor; vm_compute; discriminate.
  - unfold distinct. apply (bool_decide_unpack _). vm_compute. exact I.
  - repeat constructor; vm_compute; discriminate.
  - unfold distinct. apply (bool_decide_unpack _). vm_compute. exact I.
Defined.

End ExemplarMerger.

(** ** The exemplar reconciler *)

Module ReconcilerFacts.
Import Reconciler.
Section Facts.
Context (Bytes : Labels → string).

Local Abbreviation addSeries := (Reconciler.addSeries Bytes).
Local Abbreviation addResponse := (Reconciler.addResponse Bytes).
Local Abbreviation collect := (Reconciler.collect Bytes).
Local Abbreviation identity := (Reconciler.identity Bytes).
Local Abbreviation consistent := (Reconciler.consistent Bytes).


Lemma consistent_empty : consistent ([], ∅).
Proof.
  split; simpl.
  - constructor.
  - intros k. rewrite lookup_empty. split; [by intros ?%elem_of_nil|by intros [? ?]].
  - by rewrite map_size_empty.
  - intros k e. by rewrite lookup_empty.
Qed.

Lemma consistent_addSeries (st : acc) (ts : TimeSeries) :
  consistent st → consistent (addSeries st ts).
Proof.
  destruct st as [keys m]. intros [Hnd Hdom Hsize Hkey]. simpl in *.
  unfold Reconciler.addSeries.
  destruct (m !! Bytes (tLabels ts)) as [e|] eqn:Hlook.
  - split; simpl.
    + done.
    + intros k. rewrite Hdom. destruct (decide (Bytes (tLabels ts) = k)) as [<-|Hne].
      * rewrite lookup_insert_eq, Hlook. split; eauto.
      * by rewrite lookup_insert_ne.
    + rewrite map_size_insert_Some; [done|by rewrite Hlook].
    + intros k e'. destruct (decide (Bytes (tLabels ts) = k)) as [<-|Hne].
      * rewrite lookup_insert_eq. intros [= <-]. by apply (Hkey _ e).
      * rewrite lookup_insert_ne by done. apply Hkey.
  - split; simpl.
    + apply NoDup_app. split; [done|]. split; [|apply NoDup_singleton].
      intros k Hk ->%list_elem_of_singleton.
      apply Hdom in Hk as [? Hk]. congruence.
    + intros k. rewrite elem_of_app, list_elem_of_singleton, Hdom.
      destruct (decide (Bytes (tLabels ts) = k)) as [<-|Hne].
      * rewrite lookup_insert_eq. split; eauto.
      * rewrite lookup_insert_ne by done. split; [intros [?|?]; [done|congruence]|auto].
    + rewrite length_app, map_size_insert_None by done. simpl. lia.
    + intros k e. destruct (decide (Bytes (tLabels ts) = k)) as [<-|Hne].
      * rewrite lookup_insert_eq. by intros [= <-].
      * rewrite lookup_insert_ne by done. apply Hkey.
Qed.

Lemma consistent_foldl (st : acc) (l : list TimeSeries) :
  consistent st → consistent (foldl addSeries st l).
Proof.
  revert st. induction l as [|ts l IH]; intros st H; [done|].
  simpl. apply IH. by apply consistent_addSeries.
Qed.

Lemma consistent_collect_from (st : acc) (results : list ExemplarQueryResponse) :
  consistent st → consistent (foldl addResponse st results).
Proof.
  revert st. induction results as [|r rs IH]; intros st H; [done|].
  simpl. apply IH. by apply consistent_foldl.
Qed.

Lemma consistent_collect (results : list ExemplarQueryResponse) :
  consistent (collect results).
Proof. apply consistent_collect_from, consistent_empty. Qed.

(** The keys seen are the identities of the series fed in. *)
Lemma addSeries_keys (st : acc) (ts : TimeSeries) (k : string) :
  consistent st →
  k ∈ (addSeries st ts).1 ↔ k ∈ st.1 ∨ k = identity ts.
Proof.
  destruct st as [keys m]. intros [_ Hdom _ _]. simpl in *.
  unfold Reconciler.addSeries, Reconciler.identity.
  destruct (m !! Bytes (tLabels ts)) as [e|] eqn:Hlook; simpl.
  - split; [auto|]. intros [?| ->]; [done|]. apply Hdom. eauto.
  - by rewrite elem_of_app, list_elem_of_singleton.
Qed.

Lemma foldl_addSeries_keys (st : acc) (l : list TimeSeries) (k : string) :
  consistent st →
  k ∈ (foldl addSeries st l).1 ↔ k ∈ st.1 ∨ ∃ ts, ts ∈ l ∧ identity ts = k.
Proof.
  revert st. induction l as [|ts l IH]; intros st H; simpl.
  - split; [auto|]. intros [?|(? & ?%elem_of_nil & _)]; done.
  - rewrite IH by by apply consistent_addSeries.
    rewrite addSeries_keys by done. split.
    + intros [[?| ->]|(ts' & ? & ?)]; [by left| |].
      * right. exists ts. split; [left|done].
      * right. exists ts'. split; [by right|done].
    + intros [?|(ts' & [->|?]%elem_of_cons & <-)].
      * by left; left.
      * by left; right.
      * right. eauto.
Qed.

Lemma collect_from_keys (st : acc) (results : list ExemplarQueryResponse) (k : string) :
  consistent st →
  k ∈ (foldl addResponse st results).1 ↔
    k ∈ st.1 ∨ ∃ r ts, r ∈ results ∧ ts ∈ xTimeseries r ∧ identity ts = k.
Proof.
  revert st. induction results as [|r rs IH]; intros st H; simpl.
  - split; [auto|]. intros [?|(? & ? & ?%elem_of_nil & _)]; done.
  - rewrite IH by by apply consistent_foldl.
    unfold Reconciler.addResponse. rewrite foldl_addSeries_keys by done. split.
    + intros [[?|(ts & ? & ?)]|(r' & ts & ? & ? & ?)]; [by left| |].
      * right. exists r, ts. split; [left|done].
      * right. exists r', ts. split; [by right|done].
    + intros [?|(r' & ts & [->|?]%elem_of_cons & ? & ?)].
      * by left; left.
      * left; right. eauto.
      * right. eauto.
Qed.

(** The indexed copy never runs off the slice when the keys fit in it, and
    it writes the entries in the order of the keys. *)
Lemma fill_spec (m : gmap string TimeSeries) (keys : list string) (i : nat)
    (result : list TimeSeries) :
  (i + length keys ≤ length result)%nat →
  fill m keys i result =
    Some (take i result ++ ((λ k, default zeroTimeSeries (m !! k)) <$> keys)
            ++ drop (i + length keys) result).
Proof.
  revert i result. induction keys as [|k keys IH]; intros i result Hlen; simpl.
  - rewrite Nat.add_0_r. by rewrite take_drop.
  - simpl in Hlen. destruct (decide (i < length result)%nat); [|lia].
    rewrite IH by (rewrite length_insert; lia).
    f_equal.
    rewrite (take_S_r _ i (default zeroTimeSeries (m !! k)))
      by (by apply list_lookup_insert_eq).
    rewrite take_insert_ge by lia.
    rewrite drop_insert_lt by lia.
    rewrite <- app_assoc. simpl.
    by replace (i + S (length keys))%nat with (S (i + length keys)) by lia.
Qed.

Lemma identity_lookup (m : gmap string TimeSeries) (keys : list string) :
  (∀ k, k ∈ keys → is_Some (m !! k)) →
  (∀ k e, m !! k = Some e → identity e = k) →
  identity <$> ((λ k, default zeroTimeSeries (m !! k)) <$> keys) = keys.
Proof.
  intros Hdom Hkey. induction keys as [|k keys IH]; [done|].
  rewrite !fmap_cons. f_equal.
  - destruct (Hdom k) as [e He]; [left|]. rewrite He. simpl. by apply Hkey.
  - apply IH. intros k' Hk'. apply Hdom. by right.
Qed.

(** C8. For every list of per-replica exemplar responses the merge returns
    a response (the indexed copy stays inside the result slice); its
    entries' series identities, the canonical encodings of their label
    sets, are pairwise distinct, are in ascending lexicographic order, are
    the keys collected from the inputs in sorted order, and are exactly the
    identities of the series the replicas sent.  The output is a function
    of the inputs, so merging the same inputs again gives the same output. *)
Theorem mergeExemplarQueryResponses_sorted_unique
    (results : list ExemplarQueryResponse) :
  ∃ resp,
    mergeExemplarQueryResponses Bytes results = Some resp
    ∧ identity <$> xTimeseries resp = sortStrings (collect results).1
    ∧ NoDup (identity <$> xTimeseries resp)
    ∧ Sorted String.le (identity <$> xTimeseries resp)
    ∧ length (xTimeseries resp) = size (collect results).2
    ∧ ∀ k, k ∈ identity <$> xTimeseries resp ↔
           ∃ r ts, r ∈ results ∧ ts ∈ xTimeseries r ∧ identity ts = k.
Proof.
  pose proof (consistent_collect results) as Hc.
  pose proof (λ k, collect_from_keys ([], ∅) results k consistent_empty) as Hk.
  unfold mergeExemplarQueryResponses.
  fold (collect results) in Hk.
  destruct (collect results) as [keys m] eqn:Hcol.
  destruct Hc as [Hnd Hdom Hsize Hkey]. simpl in *.
  pose proof (merge_sort_Permutation String.le keys) as Hperm.
  fold (sortStrings keys) in Hperm.
  assert (length (sortStrings keys) = size m) as Hlen
    by (by rewrite Hperm).
  rewrite fill_spec by (rewrite length_replicate; simpl; lia).
  simpl. rewrite drop_ge by (rewrite length_replicate; lia).
  rewrite app_nil_r. eexists. split; [reflexivity|]. simpl.
  assert (identity <$> ((λ k, default zeroTimeSeries (m !! k)) <$> sortStrings keys)
          = sortStrings keys) as Hid.
  { apply identity_lookup; [|done].
    intros k Hin. apply Hdom. by rewrite <- Hperm. }
  rewrite Hid. split; [done|]. split; [by rewrite Hperm|].
  split; [apply Sorted_merge_sort; apply _|].
  split; [by rewrite length_fmap|].
  intros k. rewrite Hperm, Hk. split.
  - intros [?%elem_of_nil|?]; done.
  - auto.
Qed.

End Facts.

(** Two replicas answer for the series "up", the second also for "down":
    one entry per series, "down" first, the exemplars of "up" merged. *)
Example mergeExemplarQueryResponses_two_replicas :
  mergeExemplarQueryResponses wKey
    [mkExemplarQueryResponse
       [mkTimeSeries [("__name__", "up")] [] [mkExemplar [] (S754_zero false) 10]];
     mkExemplarQueryResponse
       [mkTimeSeries [("__name__", "up")] [] [mkExemplar [] (S754_zero false) 20];
        mkTimeSeries [("__name__", "down")] [] [mkExemplar [] (S754_zero false) 5]]]
  = Some (mkExemplarQueryResponse
       [mkTimeSeries [("__name__", "down")] [] [mkExemplar [] (S754_zero false) 5];
        mkTimeSeries [("__name__", "up")] []
          [mkExemplar [] (S754_zero false) 10; mkExemplar [] (S754_zero false) 20]]).
Proof. reflexivity. Qed.

End ReconcilerFacts.

(** ** The non-streaming merge *)

Module MatrixFacts.
Import Matrix.

(** A list either has no repetition or shows one at two positions. *)
Lemma nodup_or_repeat {A : Type} `{EqDecision A} (l : list A) :
  NoDup l ∨ ∃ i j x, (i < j)%nat ∧ l !! i = Some x ∧ l !! j = Some x.
Proof.
  induction l as [|x l [IH|(i & j & y & Hij & Hi & Hj)]].
  - left. constructor.
  - destruct (decide (x ∈ l)) as [Hin|Hnin].
    + right. apply list_elem_of_lookup in Hin as [j Hj].
      exists 0%nat, (S j), x. split; [lia|]. by split.
    + left. by constructor.
  - right. exists (S i), (S j), y. split; [lia|]. by split.
Qed.

(** Pigeons and holes: [n + 1] numbers below [n] repeat. *)
Lemma bounded_nodup_length (n : nat) (l : list nat) :
  NoDup l → (∀ x, x ∈ l → (x < n)%nat) → (length l ≤ n)%nat.
Proof.
  intros Hnd Hb.
  assert (l ⊆+ seq 0 n) as Hsub.
  { apply NoDup_submseteq; [done|]. intros x Hx. apply elem_of_seq.
    specialize (Hb x Hx). lia. }
  apply submseteq_length in Hsub. by rewrite length_seq in Hsub.
Qed.

Lemma pigeonhole (n : nat) (f : nat → Z) :
  (∀ i, 0 ≤ f i < Z.of_nat n) →
  ∃ i j, i ≠ j ∧ f i = f j.
Proof.
  intros Hb.
  destruct (nodup_or_repeat (f <$> seq 0 (S n))) as [Hnd|(i & j & x & Hij & Hi & Hj)].
  - exfalso.
    assert (NoDup (Z.to_nat <$> (f <$> seq 0 (S n)))) as Hnd'.
    { apply NoDup_fmap_2_strong; [|done].
      intros x y (a & -> & _)%list_elem_of_fmap (b & -> & _)%list_elem_of_fmap Heq.
      pose proof (Hb a). pose proof (Hb b). lia. }
    apply bounded_nodup_length with (n := n) in Hnd'.
    + rewrite !length_fmap, length_seq in Hnd'. lia.
    + intros x (y & -> & (a & -> & _)%list_elem_of_fmap)%list_elem_of_fmap.
      pose proof (Hb a). lia.
  - rewrite list_lookup_fmap in Hi. rewrite list_lookup_fmap in Hj.
    destruct (seq 0 (S n) !! i) as [a|] eqn:Ha; [|done].
    destruct (seq 0 (S n) !! j) as [b|] eqn:Hb'; [|done].
    apply lookup_seq in Ha as [-> _]. apply lookup_seq in Hb' as [-> _].
    exists i, j. simpl in *. split; [lia|congruence].
Qed.

Lemma nameNo_length (n : nat) : String.length (nameNo n) = n.
Proof. induction n as [|n IH]; [done|]. simpl. by f_equal. Qed.

Lemma metricNo_inj (i j : nat) : metricNo i = metricNo j → i = j.
Proof.
  unfold metricNo. intros H.
  assert (({[ "__name__" := nameNo i ]} : Metric) !! "__name__"
          = ({[ "__name__" := nameNo j ]} : Metric) !! "__name__") as Hl
    by (by rewrite H).
  rewrite !lookup_singleton_eq in Hl. injection Hl as Hl.
  by rewrite <- (nameNo_length i), <- (nameNo_length j), Hl.
Qed.

Section Facts.
Context (hash : Metric → Z).
Context (MergeSampleSets : list SamplePair → list SamplePair → list SamplePair).

Local Abbreviation Fingerprint := (Matrix.Fingerprint hash).
Local Abbreviation accumulatorOf := (Matrix.accumulatorOf hash).
Local Abbreviation addStream := (Matrix.addStream hash MergeSampleSets).
Local Abbreviation addResult := (Matrix.addResult hash MergeSampleSets).
Local Abbreviation accumulate := (Matrix.accumulate hash MergeSampleSets).
Local Abbreviation mergeResults := (Matrix.mergeResults hash MergeSampleSets).
Local Abbreviation tracks := (Matrix.tracks hash).

Lemma Fingerprint_range (m : Metric) : 0 ≤ Fingerprint m < 2 ^ 64.
Proof. unfold Matrix.Fingerprint. apply Z.mod_pos_bound. lia. Qed.

(** Whatever the hash, two different label sets have one fingerprint. *)
Lemma Fingerprint_collision :
  ∃ m1 m2 : Metric, m1 ≠ m2 ∧ Fingerprint m1 = Fingerprint m2.
Proof.
  destruct (pigeonhole (Z.to_nat (2 ^ 64)) (λ n, Fingerprint (metricNo n)))
    as (i & j & Hij & Heq).
  - intros i. rewrite Z2Nat.id by lia. apply Fingerprint_range.
  - exists (metricNo i), (metricNo j). split; [|done].
    intros H. by apply Hij, metricNo_inj.
Qed.


Lemma tracks_empty : tracks ∅ [].
Proof.
  split.
  - intros k v. by rewrite lookup_empty.
  - intros k v. by rewrite lookup_empty.
  - intros k. rewrite lookup_empty. split; [by intros [? ?]|].
    by intros (? & ?%elem_of_nil & _).
Qed.

Lemma tracks_addStream m seen ss :
  tracks m seen → tracks (addStream m ss) (seen ++ [ss]).
Proof.
  intros [Hfp Hsrc Hkeys]. unfold Matrix.addStream.
  set (fp := Fingerprint (ssMetric ss)).
  split.
  - intros k v. destruct (decide (fp = k)) as [<-|Hne].
    + rewrite lookup_insert_eq. intros [= <-]. unfold Matrix.accumulatorOf. simpl.
      destruct (m !! fp) as [mss|] eqn:Hl; [|done]. by apply (Hfp fp mss).
    + rewrite lookup_insert_ne by done. apply Hfp.
  - intros k v. destruct (decide (fp = k)) as [<-|Hne].
    + rewrite lookup_insert_eq. intros [= <-]. simpl.
      destruct (m !! fp) as [mss|] eqn:Hl.
      * destruct (Hsrc fp mss Hl) as (s' & Hin & Heq).
        exists s'. split; [|done]. apply elem_of_app. by left.
      * exists ss. split; [|done]. apply elem_of_app. right. left.
    + rewrite lookup_insert_ne by done. intros Hl.
      destruct (Hsrc k v Hl) as (s' & Hin & Heq).
      exists s'. split; [|done]. apply elem_of_app. by left.
  - intros k. destruct (decide (fp = k)) as [<-|Hne].
    + rewrite lookup_insert_eq. split; [|eauto]. intros _.
      exists ss. split; [|done]. apply elem_of_app. right. left.
    + rewrite lookup_insert_ne by done. rewrite Hkeys. split.
      * intros (s' & Hin & Heq). exists s'. split; [|done].
        apply elem_of_app. by left.
      * intros (s' & [Hin| ->%list_elem_of_singleton]%elem_of_app & Heq);
          [eauto|done].
Qed.

Lemma tracks_addResult m seen r :
  tracks m seen → tracks (addResult m r) (seen ++ r).
Proof.
  revert m seen. induction r as [|ss r IH]; intros m seen H; simpl.
  - by rewrite app_nil_r.
  - replace (seen ++ ss :: r) with ((seen ++ [ss]) ++ r)
      by (by rewrite <- app_assoc).
    apply IH. by apply tracks_addStream.
Qed.

Lemma tracks_accumulate_from m seen results :
  tracks m seen →
  tracks (foldl addResult m results) (seen ++ concat results).
Proof.
  revert m seen. induction results as [|r rs IH]; intros m seen H; simpl.
  - by rewrite app_nil_r.
  - rewrite app_assoc. apply IH. by apply tracks_addResult.
Qed.

Lemma tracks_accumulate results : tracks (accumulate results) (concat results).
Proof. apply (tracks_accumulate_from ∅ []), tracks_empty. Qed.

Lemma elem_of_concat_results (results : list Matrix) (ss : SampleStream) :
  ss ∈ concat results ↔ ∃ r, r ∈ results ∧ ss ∈ r.
Proof.
  induction results as [|r rs IH]; simpl.
  - split; [by intros ?%elem_of_nil|by intros (? & ?%elem_of_nil & _)].
  - rewrite elem_of_app, IH. split.
    + intros [?|(r' & ? & ?)]; [exists r; split; [left|done]|].
      exists r'. split; [by right|done].
    + intros (r' & [->|?]%elem_of_cons & ?); [by left|right; eauto].
Qed.

(** Two replicas, one stream each. *)
Lemma accumulate_two (ss1 ss2 : SampleStream) :
  accumulate [[ss1]; [ss2]] =
    addStream (addStream ∅ ss1) ss2.
Proof. reflexivity. Qed.

Lemma mergeResults_two_length (ss1 ss2 : SampleStream) :
  length (mergeResults [[ss1]; [ss2]]) =
    if decide (accumulatorOf ss1 = accumulatorOf ss2) then 1%nat else 2%nat.
Proof.
  unfold Matrix.mergeResults. rewrite length_fmap, length_map_to_list, accumulate_two.
  unfold Matrix.addStream at 1. unfold Matrix.accumulatorOf.
  set (fp1 := Fingerprint (ssMetric ss1)). set (fp2 := Fingerprint (ssMetric ss2)).
  assert (addStream ∅ ss1 !! fp1 = Some (mkSampleStream (ssMetric ss1)
            (MergeSampleSets [] (ssValues ss1)))) as H1.
  { unfold Matrix.addStream. fold fp1. by rewrite lookup_empty, lookup_insert_eq. }
  assert (size (addStream ∅ ss1) = 1%nat) as Hs.
  { unfold Matrix.addStream. fold fp1. rewrite lookup_empty.
    by rewrite map_size_insert_None, map_size_empty by apply lookup_empty. }
  destruct (decide (fp1 = fp2)) as [Heq|Hne].
  - rewrite <- Heq, H1. rewrite map_size_insert_Some; [done|by rewrite H1].
  - assert (addStream ∅ ss1 !! fp2 = None) as H2.
    { unfold Matrix.addStream. fold fp1.
      by rewrite lookup_empty, lookup_insert_ne, lookup_empty. }
    rewrite H2. by rewrite map_size_insert_None, Hs.
Qed.

Lemma mergeResults_two_collide (ss1 ss2 : SampleStream) :
  accumulatorOf ss1 = accumulatorOf ss2 →
  mergeResults [[ss1]; [ss2]] =
    [mkSampleStream (ssMetric ss1)
       (MergeSampleSets (MergeSampleSets [] (ssValues ss1)) (ssValues ss2))].
Proof.
  unfold Matrix.accumulatorOf. intros Heq.
  unfold Matrix.mergeResults. rewrite accumulate_two.
  unfold Matrix.addStream. rewrite <- Heq, lookup_empty, lookup_insert_eq. simpl.
  rewrite insert_insert_eq, insert_empty, map_to_list_singleton. done.
Qed.

(** C5, amended.  The accumulator of a stream is chosen by the 64-bit
    fingerprint of its label set, not by the label set: streams with equal
    label sets share an accumulator; the output has one series for every
    fingerprint among the streams the replicas returned and none else; every
    output series carries the label set of one of those streams; and two
    streams from two replicas give one output series exactly when their
    fingerprints are equal, two otherwise. *)
Theorem mergeResults_keyed_by_fingerprint (results : list Matrix) :
  (∀ ss1 ss2, ssMetric ss1 = ssMetric ss2 → accumulatorOf ss1 = accumulatorOf ss2)
  ∧ NoDup (accumulatorOf <$> mergeResults results)
  ∧ (∀ k, k ∈ accumulatorOf <$> mergeResults results ↔
          ∃ r ss, r ∈ results ∧ ss ∈ r ∧ accumulatorOf ss = k)
  ∧ (∀ o, o ∈ mergeResults results →
          ∃ r ss, r ∈ results ∧ ss ∈ r ∧ ssMetric o = ssMetric ss)
  ∧ (∀ ss1 ss2, length (mergeResults [[ss1]; [ss2]]) =
          if decide (accumulatorOf ss1 = accumulatorOf ss2) then 1%nat else 2%nat).
Proof.
  pose proof (tracks_accumulate results) as [Hfp Hsrc Hkeys].
  assert (accumulatorOf <$> mergeResults results
          = (map_to_list (accumulate results)).*1) as Hfst.
  { unfold Matrix.mergeResults. rewrite <- list_fmap_compose.
    apply list_fmap_ext. intros i [k v] Hl. simpl.
    apply list_elem_of_lookup_2, elem_of_map_to_list in Hl. by apply Hfp. }
  split; [intros ?? H; unfold Matrix.accumulatorOf; by rewrite H|].
  split; [rewrite Hfst; apply NoDup_fst_map_to_list|].
  split; [|split].
  - intros k. rewrite Hfst. rewrite list_elem_of_fmap. split.
    + intros ([k' v] & -> & Hin%elem_of_map_to_list). simpl.
      destruct (proj1 (Hkeys k')) as (ss & Hss & Heq); [eauto|].
      apply elem_of_concat_results in Hss as (r & ? & ?). eauto.
    + intros (r & ss & Hr & Hss & Heq).
      destruct (proj2 (Hkeys k)) as [v Hv].
      { exists ss. split; [|done]. apply elem_of_concat_results. eauto. }
      exists (k, v). split; [done|]. by apply elem_of_map_to_list.
  - intros o (kv & -> & Hin)%list_elem_of_fmap. destruct kv as [k v].
    apply elem_of_map_to_list in Hin. simpl.
    destruct (Hsrc k v Hin) as (ss & Hss & Heq).
    apply elem_of_concat_results in Hss as (r & ? & ?). eauto.
  - apply mergeResults_two_length.
Qed.

End Facts.

(** The library's hash on the empty label set and on a name by itself:
    the FNV-1a test value of the one-letter string. *)
Example labelSetToFingerprint_known_values :
  labelSetToFingerprint ∅ = 14695981039346656037
  ∧ hashAdd hashNew "a" = 0xaf63dc4c8601ec8c
  ∧ labelSetToFingerprint wMetricJobA = 0x20cc97e34cc4b24c.
Proof. repeat split; vm_compute; reflexivity. Qed.

(** C5, as stated, fails.  Two replicas return one stream each; the label
    sets differ in the value of "job" and have the fingerprint
    0x20cc97e34cc4b24c both, so the second stream finds the entry of the
    first, is folded into its accumulator, and the matrix returned has a
    single series, under the first label set, with the values of both. *)
Lemma fingerprint_collision_merges_distinct_series :
  ssMetric wStreamJobA ≠ ssMetric wStreamJobB
  ∧ Fingerprint labelSetToFingerprint (ssMetric wStreamJobA) = 0x20cc97e34cc4b24c
  ∧ Fingerprint labelSetToFingerprint (ssMetric wStreamJobB) = 0x20cc97e34cc4b24c
  ∧ accumulatorOf labelSetToFingerprint wStreamJobA
    = accumulatorOf labelSetToFingerprint wStreamJobB
  ∧ ¬ (accumulatorOf labelSetToFingerprint wStreamJobA
       = accumulatorOf labelSetToFingerprint wStreamJobB
       ↔ ssMetric wStreamJobA = ssMetric wStreamJobB)
  ∧ (∀ MergeSampleSets,
       mergeResults labelSetToFingerprint MergeSampleSets
         [[wStreamJobA]; [wStreamJobB]]
       = [mkSampleStream wMetricJobA
            (MergeSampleSets (MergeSampleSets [] (ssValues wStreamJobA))
               (ssValues wStreamJobB))]).
Proof.
  assert (ssMetric wStreamJobA ≠ ssMetric wStreamJobB) as Hne.
  { intros H. apply (f_equal (λ m : Metric, m !! "job")) in H.
    vm_compute in H. discriminate H. }
  assert (accumulatorOf labelSetToFingerprint wStreamJobA
          = accumulatorOf labelSetToFingerprint wStreamJobB) as Heq
    by (vm_compute; reflexivity).
  split; [exact Hne|]. split; [vm_compute; reflexivity|].
  split; [vm_compute; reflexivity|]. split; [exact Heq|]. split.
  - intros [H _]. by apply Hne, H.
  - intros MergeSampleSets.
    by apply (mergeResults_two_collide labelSetToFingerprint MergeSampleSets).
Qed.

(** Whatever [Fingerprint] computes, no function into the 64-bit
    fingerprints gives two streams one accumulator only when their label
    sets are equal. *)
Lemma accumulator_keys_not_exact :
  ¬ ∃ hash : Metric → Z,
      ∀ ss1 ss2 : SampleStream,
        accumulatorOf hash ss1 = accumulatorOf hash ss2 ↔ ssMetric ss1 = ssMetric ss2.
Proof.
  intros (hash & H).
  destruct (Fingerprint_collision hash) as (m1 & m2 & Hne & Heq).
  apply Hne.
  apply (H (mkSampleStream m1 []) (mkSampleStream m2 [])). exact Heq.
Qed.

(** The collision is visible in the answer: two replicas return streams
    with different label sets and the merged matrix has a single series,
    under the first label set. *)
Lemma distinct_label_sets_merged
    (hash : Metric → Z)
    (MergeSampleSets : list SamplePair → list SamplePair → list SamplePair) :
  ∃ ss1 ss2 : SampleStream,
    ssMetric ss1 ≠ ssMetric ss2
    ∧ mergeResults hash MergeSampleSets [[ss1]; [ss2]] =
        [mkSampleStream (ssMetric ss1)
           (MergeSampleSets (MergeSampleSets [] (ssValues ss1)) (ssValues ss2))].
Proof.
  destruct (Fingerprint_collision hash) as (m1 & m2 & Hne & Heq).
  exists (mkSampleStream m1 []), (mkSampleStream m2 []). split; [done|].
  by apply mergeResults_two_collide.
Qed.

End MatrixFacts.

(** ** The replica selector *)

Module SelectorFacts.
Import Selector.
Section Facts.
Context {Ctx Ring ReplicationSet : Type}.
Context (TenantID : Ctx → error + string).
Context (ShardingStrategyShuffle : string).
Context (IngestionTenantShardSize : string → Z).
Context (ShuffleShardWithLookback : Ring → string → Z → Z → Z → Ring).
Context (GetReplicationSetForOperation : Ring → Operation → error + ReplicationSet).
Context (Get : Ring → Z → Operation → error + ReplicationSet).
Context (shardByMetricName : string → string → Z).
Context (MetricNameMatcherFromMatchers : list Matcher → option Matcher).

Local Abbreviation Distributor := (@Selector.Distributor Ring).
Local Abbreviation GetIngestersForQuery :=
  (Selector.GetIngestersForQuery TenantID ShardingStrategyShuffle
     IngestionTenantShardSize ShuffleShardWithLookback
     GetReplicationSetForOperation Get shardByMetricName
     MetricNameMatcherFromMatchers).
Local Abbreviation shuffleApplies :=
  (@Selector.shuffleApplies Ring ShardingStrategyShuffle IngestionTenantShardSize).
Local Abbreviation metricNameApplies :=
  (@Selector.metricNameApplies Ring MetricNameMatcherFromMatchers).
Local Abbreviation selects :=
  (Selector.selects ShardingStrategyShuffle IngestionTenantShardSize
     ShuffleShardWithLookback GetReplicationSetForOperation Get
     shardByMetricName MetricNameMatcherFromMatchers).

Lemma shuffleApplies_dec (d : Distributor) (userID : string) :
  shuffleApplies d userID ∨ ¬ shuffleApplies d userID.
Proof.
  unfold Selector.shuffleApplies.
  destruct (decide (ShardingStrategy (cfg d) = ShardingStrategyShuffle));
    [|right; tauto].
  destruct (decide (0 < IngestionTenantShardSize userID)); [|right; tauto].
  destruct (decide (0 < ShuffleShardingLookbackPeriod (cfg d))); [|right; tauto].
  left. tauto.
Qed.

Lemma metricNameApplies_dec (d : Distributor) (matchers : list Matcher) :
  (∃ m, metricNameApplies d matchers m) ∨ ∀ m, ¬ metricNameApplies d matchers m.
Proof.
  unfold Selector.metricNameApplies.
  destruct (ShardByAllLabels (cfg d)); [right; intros m (? & _); done|].
  destruct matchers as [|m0 ms]; [right; intros m (_ & ? & _); done|].
  destruct (MetricNameMatcherFromMatchers (m0 :: ms)) as [m|] eqn:Hm;
    [|right; intros m (_ & _ & ? & _); done].
  destruct (decide (mType m = MatchEqual)) as [Heq|Hne].
  - left. exists m. done.
  - right. intros m' (_ & _ & [= <-] & ?). done.
Qed.

Section Cases.
Context (d : Distributor) (ctx : Ctx) (now : Z) (matchers : list Matcher).
Context (userID : string) (Htenant : TenantID ctx = inr userID).

Lemma select_shuffle :
  shuffleApplies d userID →
  GetIngestersForQuery d ctx now matchers =
    GetReplicationSetForOperation
      (ShuffleShardWithLookback (ingestersRing d) userID
         (IngestionTenantShardSize userID)
         (ShuffleShardingLookbackPeriod (cfg d)) now) Read.
Proof.
  intros (Hs & Hsize & Hlook). unfold Selector.GetIngestersForQuery.
  rewrite Htenant. rewrite decide_True by done.
  rewrite !Z.gtb_ltb.
  destruct (Z.ltb_spec 0 (IngestionTenantShardSize userID)); [|lia].
  destruct (Z.ltb_spec 0 (ShuffleShardingLookbackPeriod (cfg d))); [|lia].
  done.
Qed.

Lemma select_not_shuffle :
  ¬ shuffleApplies d userID →
  GetIngestersForQuery d ctx now matchers =
    match
      (if negb (ShardByAllLabels (cfg d)) && (0 <? length matchers)%nat then
         match MetricNameMatcherFromMatchers matchers with
         | Some metricNameMatcher =>
           if decide (mType metricNameMatcher = MatchEqual) then
             Some (Get (ingestersRing d)
                     (shardByMetricName userID (mValue metricNameMatcher)) Read)
           else None
         | None => None
         end
       else None)
    with
    | Some r => r
    | None => GetReplicationSetForOperation (ingestersRing d) Read
    end.
Proof.
  intros Hn. unfold Selector.GetIngestersForQuery. rewrite Htenant.
  destruct (decide (ShardingStrategy (cfg d) = ShardingStrategyShuffle)); [|done].
  rewrite !Z.gtb_ltb.
  destruct (Z.ltb_spec 0 (IngestionTenantShardSize userID)); [|done].
  destruct (Z.ltb_spec 0 (ShuffleShardingLookbackPeriod (cfg d))); [|done].
  exfalso. apply Hn. done.
Qed.

Lemma select_metric_name (m : Matcher) :
  ¬ shuffleApplies d userID →
  metricNameApplies d matchers m →
  GetIngestersForQuery d ctx now matchers =
    Get (ingestersRing d) (shardByMetricName userID (mValue m)) Read.
Proof.
  intros Hn (Hall & Hne & Hm & Heq). rewrite select_not_shuffle by done.
  rewrite Hall, Hm.
  destruct (Nat.ltb_spec 0 (length matchers)) as [Hlen|Hlen].
  - simpl. by rewrite decide_True.
  - exfalso. apply Hne. apply nil_length_inv. lia.
Qed.

Lemma select_full_ring :
  ¬ shuffleApplies d userID →
  (∀ m, ¬ metricNameApplies d matchers m) →
  GetIngestersForQuery d ctx now matchers =
    GetReplicationSetForOperation (ingestersRing d) Read.
Proof.
  intros Hn Hno. rewrite select_not_shuffle by done.
  destruct (ShardByAllLabels (cfg d)) eqn:Hall; [done|].
  destruct (Nat.ltb_spec 0 (length matchers)) as [Hlen|Hlen]; [|done]. simpl.
  destruct (MetricNameMatcherFromMatchers matchers) as [m|] eqn:Hm; [|done].
  destruct (decide (mType m = MatchEqual)) as [Heq|]; [|done].
  exfalso. apply (Hno m). unfold Selector.metricNameApplies.
  rewrite Hall. split; [done|]. split; [|done].
  intros Hnil. rewrite Hnil in Hlen. simpl in Hlen. lia.
Qed.
End Cases.

(** C7. [GetIngestersForQuery] fails with the tenant error when the tenant
    cannot be resolved; otherwise its answer is the one the priority order
    selects, and no other: (1) with the shuffle strategy and positive shard
    size and lookback, the read set of the tenant's subring with lookback;
    (2) else, with shard-by-all-labels off, a matcher supplied and an
    equality matcher on the metric name found, the ring's replica set for
    the shard key of tenant and metric name; (3) else the read set of the
    full ring. *)
Theorem GetIngestersForQuery_priority (d : Distributor) (ctx : Ctx) (now : Z)
    (matchers : list Matcher) :
  match TenantID ctx with
  | inl err => GetIngestersForQuery d ctx now matchers = inl err
  | inr userID =>
    ∀ r, selects d userID now matchers r ↔
         r = GetIngestersForQuery d ctx now matchers
  end.
Proof.
  destruct (TenantID ctx) as [err|userID] eqn:Htenant.
  { unfold Selector.GetIngestersForQuery. by rewrite Htenant. }
  intros r. split.
  - intros [Hs|m Hn Hm|Hn Hno]; symmetry.
    + by apply (select_shuffle d ctx now matchers userID Htenant).
    + by apply (select_metric_name d ctx now matchers userID Htenant m).
    + by apply (select_full_ring d ctx now matchers userID Htenant).
  - intros ->.
    destruct (shuffleApplies_dec d userID) as [Hs|Hn].
    { rewrite (select_shuffle d ctx now matchers userID) by done.
      by constructor. }
    destruct (metricNameApplies_dec d matchers) as [[m Hm]|Hno].
    + rewrite (select_metric_name d ctx now matchers userID Htenant m) by done.
      by apply selects_metric_name.
    + rewrite (select_full_ring d ctx now matchers userID) by done.
      by apply selects_full_ring.
Qed.

End Facts.

Example select_example_shuffle :
  wSelect (mkDistributor (mkConfig "shuffle-sharding" 3600 false) ["i1"; "i2"])
    (Some "tenant") 0 [mkMatcher MatchEqual "__name__" "up"]
  = inr ["i1"; "i2"; "tenant"].
Proof. reflexivity. Qed.

Example select_example_metric_name :
  wSelect (mkDistributor (mkConfig "default" 3600 false) ["i1"; "i2"])
    (Some "tenant") 0 [mkMatcher MatchEqual "job" "a"; mkMatcher MatchEqual "__name__" "up"]
  = inr ["i1"].
Proof. reflexivity. Qed.

Example select_example_regexp :
  wSelect (mkDistributor (mkConfig "default" 3600 false) ["i1"; "i2"])
    (Some "tenant") 0 [mkMatcher MatchRegexp "__name__" "u.*"]
  = inr ["i1"; "i2"].
Proof. reflexivity. Qed.

Example select_example_no_tenant :
  wSelect (mkDistributor (mkConfig "shuffle-sharding" 3600 false) ["i1"; "i2"])
    None 0 []
  = inl (OtherError "no org id").
Proof. reflexivity. Qed.

End SelectorFacts.

(** ** The per-replica callbacks *)

Module CallbackFacts.
Import Callback.
Local Open Scope callback_scope.

Section Limits.
Context {Limiter : Type}.
Context (AddChunks : Z → Limiter → Limiter * option string).
Context (AddSeries : Labels → Limiter → Limiter * option string).
Context (AddChunkBytes : Z → Limiter → Limiter * option string).
Context (AddDataBytes : Z → Limiter → Limiter * option string).
Context (ChunksCount ChunksSize Size : QueryStreamResponse → Z).

Local Abbreviation World := (@Callback.World Limiter).
Local Abbreviation handleMessage :=
  (Callback.handleMessage AddChunks AddSeries AddChunkBytes AddDataBytes
     ChunksCount ChunksSize Size).
Local Abbreviation recvLoop :=
  (Callback.recvLoop AddChunks AddSeries AddChunkBytes AddDataBytes
     ChunksCount ChunksSize Size).
Local Abbreviation streamCallback :=
  (Callback.streamCallback AddChunks AddSeries AddChunkBytes AddDataBytes
     ChunksCount ChunksSize Size).
Local Abbreviation checks :=
  (Callback.checks AddChunks AddSeries AddChunkBytes AddDataBytes
     ChunksCount ChunksSize Size).


Lemma firstFailure_app (cs1 cs2 : list (Limiter → Limiter * option string)) l :
  firstFailure (cs1 ++ cs2) l =
    match firstFailure cs1 l with
    | (l', Some msg) => (l', Some msg)
    | (l', None) => firstFailure cs2 l'
    end.
Proof.
  revert l. induction cs1 as [|c cs1 IH]; intros l; [done|].
  simpl. destruct (c l) as [l' [msg|]]; [done|]. apply IH.
Qed.

Lemma limit_checked (c : Limiter → Limiter * option string) (w : World) :
  limit c w = checked [c] w.
Proof.
  unfold limit, checked. simpl. by destruct (c (limiter w)) as [l [msg|]].
Qed.

Lemma checked_seq (cs1 cs2 : list (Limiter → Limiter * option string)) (w : World) :
  (checked cs1 ;; checked cs2) w = checked (cs1 ++ cs2) w.
Proof.
  unfold bind, checked. rewrite firstFailure_app.
  by destruct (firstFailure cs1 (limiter w)) as [l [msg|]].
Qed.

Lemma bind_ext {S A B : Type} (m m' : M S A) (k k' : A → M S B) (s : S) :
  (∀ s, m s = m' s) → (∀ x s, k x s = k' x s) → bind m k s = bind m' k' s.
Proof.
  intros Hm Hk. unfold bind. rewrite Hm.
  destruct (m' s) as [s' [err|x]]; [done|apply Hk].
Qed.

Lemma forEach_checked {A : Type} (f : A → Limiter → Limiter * option string)
    (xs : list A) (w : World) :
  forEach (λ x, limit (f x)) xs w = checked (f <$> xs) w.
Proof.
  revert w. induction xs as [|x xs IH]; intros w.
  - unfold checked. simpl. by destruct w.
  - simpl forEach. rewrite fmap_cons.
    change (f x :: (f <$> xs)) with ([f x] ++ (f <$> xs)).
    rewrite <- checked_seq. apply bind_ext; [apply limit_checked|].
    intros _. apply IH.
Qed.

Lemma checked_seq_k (cs1 cs2 : list (Limiter → Limiter * option string))
    (k : M World unit) (w : World) :
  (checked cs1 ;; checked cs2 ;; k) w = (checked (cs1 ++ cs2) ;; k) w.
Proof.
  unfold bind, checked. rewrite firstFailure_app.
  destruct (firstFailure cs1 (limiter w)) as [l [msg|]]; [done|]. simpl.
  by destruct (firstFailure cs2 l) as [l' [msg|]].
Qed.

Lemma handleMessage_checked (resp : QueryStreamResponse) (w : World) :
  handleMessage resp w =
    (checked (checks resp) ;;
     when (0 <? length (rChunkseries resp))%nat (push (PushCS (rChunkseries resp))) ;;
     when (0 <? length (rTimeseries resp))%nat (push (PushTS (rTimeseries resp)))) w.
Proof.
  unfold Callback.handleMessage.
  etrans.
  { apply bind_ext; [intros; apply limit_checked|]. intros ? s1.
    apply bind_ext; [intros; apply forEach_checked|]. intros ? s2.
    apply bind_ext; [intros; apply limit_checked|]. intros ? s3.
    apply bind_ext; [intros; apply limit_checked|]. intros ? s4.
    apply bind_ext; [intros; apply forEach_checked|]. intros ? s5.
    reflexivity. }
  rewrite !checked_seq_k. unfold Callback.checks.
  by rewrite <- !app_assoc.
Qed.

Lemma handleMessage_run (resp : QueryStreamResponse) (w : World) :
  handleMessage resp w =
    match firstFailure (checks resp) (limiter w) with
    | (l, Some msg) => (mkWorld l (metrics w) (sent w), inl (LimitError msg))
    | (l, None) => (mkWorld l (metrics w) (sent w ++ pushes resp), inr tt)
    end.
Proof.
  rewrite handleMessage_checked. unfold bind at 1. unfold checked.
  destruct (firstFailure (checks resp) (limiter w)) as [l [msg|]]; [done|].
  unfold pushes, bind, when, push, ret.
  destruct (0 <? length (rChunkseries resp))%nat;
    destruct (0 <? length (rTimeseries resp))%nat; simpl;
    by rewrite <- ?app_assoc, ?app_nil_r.
Qed.

Lemma recvLoop_app (addr : string) (before rest : list QueryStreamResponse)
    (closing : error) (w : World) :
  recvLoop addr (before ++ rest) closing w =
    (forEach handleMessage before ;; recvLoop addr rest closing) w.
Proof.
  revert w. induction before as [|resp before IH]; intros w; [done|].
  simpl. unfold bind in *.
  destruct (handleMessage resp w) as [w1 [err|[]]]; [done|]. apply IH.
Qed.

(** C6. For every streamed message the callback runs the limit checks in
    the order: max chunks on the message's chunk count, max series for each
    chunk-series, max chunk bytes, max message bytes, max series for each
    raw time-series; the first check that fails ends the handling with a
    limit error carrying its message, and nothing of the message is put on
    a channel; when all pass the two non-empty batches are pushed.  So a
    message whose chunk-series exceed the series limit fails with the
    series reason whatever the chunk-bytes check would say, and a failing
    message ends the receive loop with the limit error, leaving on the
    channels only what earlier messages pushed. *)
Theorem handleMessage_limit_order (resp : QueryStreamResponse) (w : World) :
  handleMessage resp w =
    match firstFailure (checks resp) (limiter w) with
    | (l, Some msg) => (mkWorld l (metrics w) (sent w), inl (LimitError msg))
    | (l, None) => (mkWorld l (metrics w) (sent w ++ pushes resp), inr tt)
    end
  ∧ (∀ l1 l2 msg,
       AddChunks (ChunksCount resp) (limiter w) = (l1, None) →
       firstFailure ((λ series, AddSeries (csLabels series)) <$> rChunkseries resp) l1
         = (l2, Some msg) →
       handleMessage resp w = (mkWorld l2 (metrics w) (sent w), inl (LimitError msg)))
  ∧ (∀ addr before after closing w0 l msg,
       forEach handleMessage before w0 = (w, inr tt) →
       firstFailure (checks resp) (limiter w) = (l, Some msg) →
       recvLoop addr (before ++ resp :: after) closing w0
         = (mkWorld l (metrics w) (sent w), inl (LimitError msg))).
Proof.
  split; [apply handleMessage_run|]. split.
  - intros l1 l2 msg H1 H2. rewrite handleMessage_run.
    unfold Callback.checks.
    change ([AddChunks (ChunksCount resp)] ++ ?r) with (AddChunks (ChunksCount resp) :: r).
    cbn [firstFailure]. rewrite H1, firstFailure_app, H2. done.
  - intros addr before after closing w0 l msg Hbefore Hfail.
    rewrite recvLoop_app. unfold bind. rewrite Hbefore.
    cbn [Callback.recvLoop]. unfold bind.
    by rewrite handleMessage_run, Hfail.
Qed.

Lemma count_inc (addr : string) (c : gmap string nat) :
  count addr (inc addr c) = S (count addr c).
Proof. unfold count, inc. by rewrite lookup_insert_eq. Qed.

(** C9, on the code.  A per-replica call that fails with a canceled-context
    error is counted as a failure of the replica by the callback of the
    sample query, by the callback of the exemplar query and, when the error
    comes from opening the stream, by the callback of the streaming query;
    only an error from [Recv] inside the receive loop is left uncounted. *)
Theorem canceled_call_counted_as_failure (addr msg : string) (w : World) :
  IsGRPCContextCanceled (GRPCStatus 1 msg) = true
  ∧ count addr (ingesterQueryFailures
      (queryCallback (R := Matrix.Matrix) addr (inr tt) (inl (GRPCStatus 1 msg))
         (metrics w)).1)
    = S (count addr (ingesterQueryFailures (metrics w)))
  ∧ count addr (ingesterQueryFailures
      (exemplarCallback addr (inr tt) (inl (GRPCStatus 1 msg)) (metrics w)).1)
    = S (count addr (ingesterQueryFailures (metrics w)))
  ∧ count addr (ingesterQueryFailures (metrics
      (streamCallback addr (inr tt) (inl (GRPCStatus 1 msg)) w).1))
    = S (count addr (ingesterQueryFailures (metrics w)))
  ∧ count addr (ingesterQueryFailures (metrics
      (streamCallback addr (inr tt)
         (inr (mkClientStream [] (GRPCStatus 1 msg))) w).1))
    = count addr (ingesterQueryFailures (metrics w)).
Proof.
  split; [done|]. repeat split; simpl; by rewrite ?count_inc.
Qed.

End Limits.


(** The theorem under the counting limiter, at a message that breaks the
    series limit and the chunk-bytes limit: the series reason is reported
    and nothing is sent. *)
Lemma handleMessage_limit_order_witness :
  (counterAddChunkBytes wLimits (chunksSize wResp) (mkCounters 0 [] 0 0)).2
    = Some "max chunk bytes"
  ∧ (Callback.handleMessage (counterAddChunks wLimits) (counterAddSeries wLimits)
       (counterAddChunkBytes wLimits) (counterAddDataBytes wLimits)
       chunksCount chunksSize messageSize wResp wWorld).2
    = inl (LimitError "max series")
  ∧ Callback.recvLoop (counterAddChunks wLimits) (counterAddSeries wLimits)
      (counterAddChunkBytes wLimits) (counterAddDataBytes wLimits)
      chunksCount chunksSize messageSize "ingester-1" ([] ++ wResp :: [wResp]) EOF wWorld
    = (mkWorld (mkCounters 2 [[("__name__", "down")]; [("__name__", "up")]] 0 0)
         (mkMetrics ∅ ∅) [],
       inl (LimitError "max series")).
Proof.
  pose proof (handleMessage_limit_order (counterAddChunks wLimits)
    (counterAddSeries wLimits) (counterAddChunkBytes wLimits)
    (counterAddDataBytes wLimits) chunksCount chunksSize messageSize
    wResp wWorld) as (_ & H2 & H3).
  split; [reflexivity|]. split.
  - erewrite H2; [reflexivity|reflexivity|reflexivity].
  - apply (H3 "ingester-1" [] [wResp] EOF wWorld); reflexivity.
Defined.

End CallbackFacts.

(** ** The streaming engine *)

Module EngineFacts.
Import Callback Engine.

(** Entries that sit under the key of their own labels enumerate without
    a repeated key. *)
Lemma keyed_values_nodup {V : Type} (f : V → string) (m : gmap string V) :
  (∀ k e, m !! k = Some e → f e = k) →
  NoDup (f <$> (map_to_list m).*2).
Proof.
  intros Hkey.
  assert (f <$> (map_to_list m).*2 = (map_to_list m).*1) as ->.
  { rewrite <- list_fmap_compose. apply list_fmap_ext. intros i [k e] Hl. simpl.
    apply list_elem_of_lookup_2, elem_of_map_to_list in Hl. by apply Hkey. }
  apply NoDup_fst_map_to_list.
Qed.

Section Facts.
Context (LabelsToKeyString : Labels → string).

Local Abbreviation addChunkSeries := (Engine.addChunkSeries LabelsToKeyString).
Local Abbreviation addTimeSeries := (Engine.addTimeSeries LabelsToKeyString).
Local Abbreviation step := (Engine.step LabelsToKeyString).
Local Abbreviation run := (Engine.run LabelsToKeyString).
Local Abbreviation chunkseriesKeys := (Engine.chunkseriesKeys LabelsToKeyString).
Local Abbreviation timeseriesKeys := (Engine.timeseriesKeys LabelsToKeyString).
Local Abbreviation keyedCS := (Engine.keyedCS LabelsToKeyString).
Local Abbreviation keyedTS := (Engine.keyedTS LabelsToKeyString).
Local Abbreviation keyed := (Engine.keyed LabelsToKeyString).

(** *** The accumulation maps *)


Lemma keyedCS_add m series : keyedCS m → keyedCS (addChunkSeries m series).
Proof.
  intros H k e. unfold Engine.addChunkSeries.
  destruct (decide (LabelsToKeyString (csLabels series) = k)) as [<-|Hne].
  - rewrite lookup_insert_eq. by intros [= <-].
  - rewrite lookup_insert_ne by done. apply H.
Qed.

Lemma keyedTS_add m series : keyedTS m → keyedTS (addTimeSeries m series).
Proof.
  intros H k e. unfold Engine.addTimeSeries.
  destruct (decide (LabelsToKeyString (tLabels series) = k)) as [<-|Hne].
  - rewrite lookup_insert_eq. by intros [= <-].
  - rewrite lookup_insert_ne by done. apply H.
Qed.

Lemma keyedCS_foldl m batch : keyedCS m → keyedCS (foldl addChunkSeries m batch).
Proof.
  revert m. induction batch as [|x batch IH]; intros m H; [done|].
  simpl. by apply IH, keyedCS_add.
Qed.

Lemma keyedTS_foldl m batch : keyedTS m → keyedTS (foldl addTimeSeries m batch).
Proof.
  revert m. induction batch as [|x batch IH]; intros m H; [done|].
  simpl. by apply IH, keyedTS_add.
Qed.


(** Case analysis on a step that was taken. *)
Ltac step_cases H :=
  unfold Engine.step in H;
  repeat match type of H with
         | None = Some _ => discriminate H
         | Some _ = Some _ => injection H as H; subst
         | context [decide ?P] => destruct (decide P)
         | context [match ?x with _ => _ end] => destruct x eqn:?
         end.

Lemma keyed_step c s s' : step c s = Some s' → keyed s → keyed s'.
Proof.
  intros Hstep [Hcs Hts]. destruct c; step_cases Hstep; split; simpl; try done.
  - by apply keyedCS_foldl.
  - by apply keyedTS_foldl.
Qed.

Lemma run_invariant (P : State → Prop) :
  (∀ c s s', step c s = Some s' → P s → P s') →
  ∀ schedule s s', run schedule s = Some s' → P s → P s'.
Proof.
  intros Hstep schedule. induction schedule as [|c schedule IH]; intros s s'.
  - simpl. by intros [= <-].
  - simpl. destruct (step c s) as [s1|] eqn:Hs; [|done].
    intros Hrun HP. eapply IH; [done|]. by eapply Hstep.
Qed.

Lemma keyed_initial pending : keyed (initial pending).
Proof. split; intros k e; simpl; by rewrite lookup_empty. Qed.

(** Every state a run reaches keeps its entries under their own keys. *)
Lemma keyed_run pending schedule s :
  run schedule (initial pending) = Some s → keyed s.
Proof.
  intros Hrun.
  eapply (run_invariant keyed); [apply keyed_step|exact Hrun|apply keyed_initial].
Qed.

(** *** The wait group *)


Lemma stuck_or_running_step c s s' :
  step c s = Some s' → stuck_or_running s → stuck_or_running s'.
Proof.
  intros Hstep (Hret & Hcases). unfold stuck_or_running.
  destruct c; step_cases Hstep; simpl in *;
    destruct Hcases as [(Ha & Hw & [Hm|Hm])|(Ha & Hw & Hm)];
    try congruence; try lia;
    (split; [done|]);
    solve [ left; split; [done|]; split; [simpl; lia|]; auto
          | right; split; [done|]; split; [simpl; lia|]; auto ].
Qed.

Lemma stuck_or_running_initial pending : stuck_or_running (initial pending).
Proof. split; [done|]. left. auto. Qed.

Lemma allReturned_lookup (s : State) (i : nat) :
  allReturned s = true → replicas s !! i = Some [] ∨ replicas s !! i = None.
Proof.
  unfold allReturned. rewrite forallb_forall. intros Hall.
  destruct (replicas s !! i) as [[|p rest]|] eqn:Hl; auto.
  specialize (Hall (p :: rest)). simpl in Hall.
  assert (false = true); [|done]. apply Hall.
  apply list_elem_of_In. by eapply list_elem_of_lookup_2.
Qed.

(** C3, on the code.  The wait group is armed with 2 and only the
    aggregator ever calls [Done]: in every reachable state nothing has been
    returned to the caller, and once the aggregator has consumed the stop
    signal and returned, the counter is 1, [queryIngesterStream] sits in
    [wg.Wait()], the wait cannot return, and with every callback returned
    no party can take a step again. *)
Theorem wait_never_completes (pending : list (list Push))
    (schedule : list Choice) (s : State) :
  run schedule (initial pending) = Some s →
  returned s = None
  ∧ main s ≠ MainReturned
  ∧ (aggregator s = AggReturned →
     main s = MainWait ∧ wg s = 1
     ∧ step WaitReturns s = None
     ∧ (allReturned s = true → ∀ c, step c s = None)).
Proof.
  intros Hrun.
  assert (stuck_or_running s) as (Hret & Hcases).
  { eapply (run_invariant stuck_or_running);
      [apply stuck_or_running_step|exact Hrun|apply stuck_or_running_initial]. }
  split; [done|]. split.
  { destruct Hcases as [(_ & _ & [Hm|Hm])|(_ & _ & Hm)]; congruence. }
  intros Hagg.
  destruct Hcases as [(Ha & _)|(_ & Hw & Hm)]; [congruence|].
  split; [done|]. split; [done|].
  assert (step WaitReturns s = None) as Hwait.
  { unfold Engine.step. rewrite decide_True by done.
    rewrite decide_False; [done|lia]. }
  split; [done|].
  intros Hall c. destruct c; try exact Hwait; unfold Engine.step.
  - destruct (allReturned_lookup s i Hall) as [-> | ->]; done.
  - rewrite Hm. by rewrite decide_False.
  - by rewrite Hagg.
  - by rewrite Hagg.
  - by rewrite Hagg.
  - rewrite Hm. by rewrite decide_False.
Qed.

(** C2, on the code.  One replica pushes one batch of chunk-series and
    returns, [Do] returns, the stop signal is offered, and the [select]
    takes it although the batch is still queued: the aggregator has
    returned, the batch is on [chCS], the accumulation map is empty, and no
    step is left that could fold it. *)
Theorem aggregator_leaves_batch_queued (batch : list TimeSeriesChunk) :
  ∃ s,
    run [ReplicaSends 0; DoReturns None; AggRecvDone] (initial [[PushCS batch]])
      = Some s
    ∧ allReturned s = true
    ∧ aggregator s = AggReturned
    ∧ chCS s = [batch]
    ∧ hashToChunkseries s = ∅
    ∧ ∀ schedule s', run schedule s = Some s' → s' = s.
Proof.
  eexists. split; [reflexivity|]. simpl.
  split; [done|]. split; [done|]. split; [done|]. split; [done|].
  intros schedule s'. destruct schedule as [|c schedule]; [by intros [= <-]|].
  by destruct c as [[|i]|err| | | | |].
Qed.

End Facts.


Lemma wState_run : Engine.run wKey wSchedule (initial wPending) = Some wState.
Proof. reflexivity. Qed.

(** The theorem at the run of two replicas. *)
Lemma wait_never_completes_witness :
  returned wState = None
  ∧ main wState ≠ MainReturned
  ∧ (aggregator wState = AggReturned →
     main wState = MainWait ∧ wg wState = 1
     ∧ Engine.step wKey WaitReturns wState = None
     ∧ (allReturned wState = true → ∀ c, Engine.step wKey c wState = None)).
Proof.
  apply (wait_never_completes wKey wPending wSchedule wState).
  reflexivity.
Defined.

(** The run above has indeed folded both batches into one entry. *)
Lemma wState_folded :
  aggregator wState = AggReturned
  ∧ (csChunks <$> hashToChunkseries wState !! "up")
    = Some [mkChunk 0 10 1 [Byte.x01]; mkChunk 0 10 1 [Byte.x02]]
  ∧ length (rChunkseries (buildResponse wState)) = 1%nat.
Proof. split; [reflexivity|]. split; reflexivity. Qed.

End EngineFacts.

(** ** More on the two mergers *)

Module MergeLaws.
Import Merge MergeFacts.

Section Laws.
Context {A : Type} (ts : A → Z).

Local Abbreviation merge := (Merge.merge ts).
Local Abbreviation loop := (Merge.loop ts).
Local Abbreviation run := (Merge.run ts).
Local Abbreviation tss := (Merge.tss ts).
Local Abbreviation strict := (Merge.strict ts).

(** Two slices with the same timestamps, position by position, merge to
    the left one. *)
Lemma merge_same_tss (a b : list A) : tss a = tss b → merge a b = a.
Proof.
  revert b. induction a as [|x a IH]; intros [|y b]; try done.
  unfold Merge.tss. rewrite !fmap_cons. intros [= Hxy Hab].
  rewrite merge_cons, Hxy, Z.ltb_irrefl.
  replace (ts y >? ts y) with false
    by (symmetry; rewrite Z.gtb_ltb; apply Z.ltb_irrefl).
  f_equal. by apply IH.
Qed.

Lemma loop_exit (fuel : nat) (a b : list A) (i j : nat) (res : list A) :
  (length a - i + (length b - j) ≤ fuel)%nat →
  (i ≤ length a)%nat → (j ≤ length b)%nat →
  let '(i', j', _) := loop fuel a b i j res in
  (i' ≤ length a)%nat ∧ (j' ≤ length b)%nat
  ∧ (i' = length a ∨ j' = length b).
Proof.
  revert i j res. induction fuel as [|fuel IH]; intros i j res Hf Hi Hj.
  - cbn [Merge.loop]. split; [done|]. split; [done|]. lia.
  - cbn [Merge.loop].
    destruct (a !! i) as [x|] eqn:Ha; last first.
    { apply lookup_ge_None in Ha. split; [done|]. split; [done|]. lia. }
    destruct (b !! j) as [y|] eqn:Hb; last first.
    { apply lookup_ge_None in Hb. split; [done|]. split; [done|]. lia. }
    pose proof (lookup_lt_Some _ _ _ Ha). pose proof (lookup_lt_Some _ _ _ Hb).
    destruct (ts x <? ts y); [|destruct (ts x >? ts y)]; apply IH; lia.
Qed.

Lemma merge_length (a b : list A) :
  (length (merge a b) ≤ length a + length b)%nat
  ∧ (length a ≤ length (merge a b))%nat
  ∧ (length b ≤ length (merge a b))%nat.
Proof.
  revert b. induction a as [|x a IHa]; intros b.
  { rewrite merge_nil_l. simpl. lia. }
  induction b as [|y b IHb].
  { rewrite merge_nil_r. simpl. lia. }
  rewrite merge_cons.
  destruct (ts x <? ts y); [|destruct (ts x >? ts y)]; simpl.
  - specialize (IHa (y :: b)). simpl in IHa. lia.
  - simpl in IHb. lia.
  - specialize (IHa b). lia.
Qed.

Lemma strict_nodup (l : list A) : strict l → NoDup l.
Proof. intros H. eapply NoDup_fmap_1. by apply (strict_distinct ts). Qed.

(** Strictly ascending slices with the same elements are the same slice. *)
Lemma strict_ext (l1 l2 : list A) :
  strict l1 → strict l2 → (∀ e, e ∈ l1 ↔ e ∈ l2) → l1 = l2.
Proof.
  intros H1 H2 Hel.
  apply (StronglySorted_unique_strong (λ x y, ts x < ts y)); [|done|done|].
  - intros x1 x2 _ _ ??. lia.
  - apply NoDup_Permutation; [by apply strict_nodup..|done].
Qed.

Lemma merge_assoc (a b c : list A) :
  strict a → strict b → strict c →
  merge (merge a b) c = merge a (merge b c).
Proof.
  intros Ha Hb Hc.
  pose proof (strict_merge ts a b Ha Hb) as Hab.
  pose proof (strict_merge ts b c Hb Hc) as Hbc.
  apply strict_ext; [by apply strict_merge..|].
  intros e. rewrite !elem_of_merge by done.
  pose proof (tss_merge ts (ts e) a b Ha Hb) as Htab.
  split.
  - intros [[?|[? ?]]|[? Hn]]; [by left| |].
    + right. split; [by left|done].
    + right. split.
      * right. split; [done|]. intros ?. apply Hn, Htab. by right.
      * intros ?. apply Hn, Htab. by left.
  - intros [?|[[?|[? Hnb]] Hna]]; [by left; left|by left; right|].
    right. split; [done|]. intros [?|?]%Htab; done.
Qed.

Lemma merge_absorb_r (a b : list A) :
  strict a → strict b → merge (merge a b) b = merge a b.
Proof.
  intros Ha Hb. pose proof (strict_merge ts a b Ha Hb) as Hab.
  apply strict_ext; [by apply strict_merge|done|].
  intros e. rewrite (elem_of_merge ts e (merge a b) b) by done.
  split; [|by left]. intros [?|[He Hn]]; [done|].
  exfalso. apply Hn, tss_merge; [done..|]. right.
  apply list_elem_of_fmap. eauto.
Qed.

Lemma merge_absorb_l (a b : list A) :
  strict a → strict b → merge (merge a b) a = merge a b.
Proof.
  intros Ha Hb. pose proof (strict_merge ts a b Ha Hb) as Hab.
  apply strict_ext; [by apply strict_merge|done|].
  intros e. rewrite (elem_of_merge ts e (merge a b) a) by done.
  split; [|by left]. intros [?|[He Hn]]; [done|].
  by apply elem_of_merge_l.
Qed.

Lemma strict_tss (l : list A) : strict l → StronglySorted Z.lt (tss l).
Proof.
  intros H. induction H as [|x l Hs IH Hf]; [constructor|].
  unfold Merge.tss. rewrite fmap_cons. constructor; [done|].
  by apply Forall_fmap.
Qed.

Lemma merge_tss_comm (a b : list A) :
  strict a → strict b → tss (merge a b) = tss (merge b a).
Proof.
  intros Ha Hb.
  apply (StronglySorted_unique_strong Z.lt).
  - intros ?? _ _ ??. lia.
  - by apply strict_tss, strict_merge.
  - by apply strict_tss, strict_merge.
  - apply NoDup_Permutation.
    + by apply (strict_distinct ts), strict_merge.
    + by apply (strict_distinct ts), strict_merge.
    + intros t. rewrite !tss_merge by done. tauto.
Qed.

Lemma merge_comm (a b : list A) :
  strict a → strict b →
  (∀ x y, x ∈ a → y ∈ b → ts x = ts y → x = y) →
  merge a b = merge b a.
Proof.
  intros Ha Hb Hagree.
  apply strict_ext; [by apply strict_merge..|].
  intros e. rewrite !elem_of_merge by done.
  assert (∀ l (e : A), e ∈ l → ts e ∈ tss l) as Hin.
  { intros l e' ?. apply list_elem_of_fmap. eauto. }
  split.
  - intros [He|[He Hn]]; [|by left].
    destruct (decide (ts e ∈ tss b)) as [Hb'|Hb']; [|by right].
    apply list_elem_of_fmap in Hb' as (y & Heq & Hy).
    left. by rewrite (Hagree e y He Hy Heq).
  - intros [He|[He Hn]]; [|by left].
    destruct (decide (ts e ∈ tss a)) as [Ha'|Ha']; [|by right].
    apply list_elem_of_fmap in Ha' as (x & Heq & Hx).
    left. by rewrite <- (Hagree x e Hx He (eq_sym Heq)).
Qed.

End Laws.
End MergeLaws.

Section MergerLaws.
Import Merge MergeFacts MergeLaws.

(** X1. The fast path of [mergeSamples] never changes the answer: with or
    without it the result is what the merge loop and the two appends give. *)
Theorem mergeSamples_fast_path_neutral (a b : list Sample) :
  mergeSamples a b = Merge.run sTimestampMs a b.
Proof.
  unfold mergeSamples. destruct (sameSamples a b) eqn:Hsame; [|done].
  rewrite run_merge. symmetry. by apply merge_same_tss, sameSamples_tss.
Qed.

(** X2. When the merge loop of [mergeExemplarSets] and [mergeSamples]
    stops, both indices are within their slices and one of the slices is
    used up, as the comment after the loop says. *)
Theorem merge_loop_uses_up_one_side {A : Type} (ts : A → Z) (a b : list A) :
  let '(i, j, _) := Merge.loop ts (length a + length b) a b 0 0 [] in
  (i ≤ length a)%nat ∧ (j ≤ length b)%nat ∧ (i = length a ∨ j = length b).
Proof. apply loop_exit; lia. Qed.

(** X3. The result of [mergeExemplarSets] never outgrows the capacity
    [len(a)+len(b)] it was made with and is at least as long as either
    input; merging with an empty list gives the other list back. *)
Theorem mergeExemplarSets_length (a b : list Exemplar) :
  (length (mergeExemplarSets a b) ≤ length a + length b)%nat
  ∧ (length a ≤ length (mergeExemplarSets a b))%nat
  ∧ (length b ≤ length (mergeExemplarSets a b))%nat
  ∧ mergeExemplarSets a [] = a
  ∧ mergeExemplarSets [] b = b.
Proof.
  unfold mergeExemplarSets. rewrite !run_merge.
  pose proof (merge_length eTimestampMs a b) as (? & ? & ?).
  by rewrite merge_nil_l, merge_nil_r.
Qed.

(** X4. On lists strictly ascending by timestamp the exemplar merge is
    associative: folding three replicas' lists gives the same list however
    the merges are grouped. *)
Theorem mergeExemplarSets_assoc (a b c : list Exemplar) :
  strict eTimestampMs a → strict eTimestampMs b → strict eTimestampMs c →
  mergeExemplarSets (mergeExemplarSets a b) c
  = mergeExemplarSets a (mergeExemplarSets b c).
Proof.
  intros. unfold mergeExemplarSets. rewrite !run_merge. by apply merge_assoc.
Qed.

Lemma mergeExemplarSets_assoc_witness :
  mergeExemplarSets (mergeExemplarSets wEa wEb) wEa
  = mergeExemplarSets wEa (mergeExemplarSets wEb wEa).
Proof.
  apply (mergeExemplarSets_assoc wEa wEb wEa);
    unfold strict; repeat constructor; vm_compute; reflexivity.
Defined.

(** X5. On sequences strictly ascending by timestamp, merging in a sequence
    that was merged in before changes nothing: the samples every further
    replica repeats are absorbed. *)
Theorem mergeSamples_absorbs (a b : list Sample) :
  strict sTimestampMs a → strict sTimestampMs b →
  mergeSamples (mergeSamples a b) b = mergeSamples a b
  ∧ mergeSamples (mergeSamples a b) a = mergeSamples a b.
Proof.
  intros Ha Hb. rewrite !mergeSamples_fast_path_neutral, !run_merge.
  split; [by apply merge_absorb_r|by apply merge_absorb_l].
Qed.

Lemma mergeSamples_absorbs_witness :
  mergeSamples (mergeSamples wA wB) wB = mergeSamples wA wB
  ∧ mergeSamples (mergeSamples wA wB) wA = mergeSamples wA wB.
Proof.
  apply (mergeSamples_absorbs wA wB);
    unfold strict; repeat constructor; vm_compute; reflexivity.
Defined.

(** X6. On sequences strictly ascending by timestamp the order of the two
    arguments of [mergeSamples] does not change the timestamps of the
    result. *)
Theorem mergeSamples_tss_comm (a b : list Sample) :
  strict sTimestampMs a → strict sTimestampMs b →
  tss sTimestampMs (mergeSamples a b) = tss sTimestampMs (mergeSamples b a).
Proof.
  intros Ha Hb. rewrite !mergeSamples_fast_path_neutral, !run_merge.
  by apply merge_tss_comm.
Qed.

Lemma mergeSamples_tss_comm_witness :
  tss sTimestampMs (mergeSamples wA wB) = tss sTimestampMs (mergeSamples wB wA).
Proof.
  apply (mergeSamples_tss_comm wA wB);
    unfold strict; repeat constructor; vm_compute; reflexivity.
Defined.

(** X7. When two strictly ascending sequences carry the same sample
    wherever they share a timestamp, as replicas that agree do,
    [mergeSamples] gives the same result in either order. *)
Theorem mergeSamples_comm (a b : list Sample) :
  strict sTimestampMs a → strict sTimestampMs b →
  (∀ x y, x ∈ a → y ∈ b → sTimestampMs x = sTimestampMs y → x = y) →
  mergeSamples a b = mergeSamples b a.
Proof.
  intros Ha Hb Hagree. rewrite !mergeSamples_fast_path_neutral, !run_merge.
  by apply merge_comm.
Qed.

Lemma mergeSamples_comm_witness : mergeSamples wA wC = mergeSamples wC wA.
Proof.
  apply (mergeSamples_comm wA wC).
  - unfold strict; repeat constructor; vm_compute; reflexivity.
  - unfold strict; repeat constructor; vm_compute; reflexivity.
  - intros x y Hx%list_elem_of_In Hy%list_elem_of_In. simpl in Hx, Hy.
    destruct Hx as [<-|[<-|[]]]; destruct Hy as [<-|[<-|[]]];
      intros H; first [reflexivity | vm_compute in H; discriminate H].
Defined.

End MergerLaws.

(** ** More on the exemplar reconciler *)

Module ReconcilerLaws.
Import Reconciler ReconcilerFacts Arrival.
Section Laws.
Context (Bytes : Labels → string).

Local Abbreviation addSeries := (Reconciler.addSeries Bytes).
Local Abbreviation addResponse := (Reconciler.addResponse Bytes).
Local Abbreviation collect := (Reconciler.collect Bytes).
Local Abbreviation identity := (Reconciler.identity Bytes).
Local Abbreviation consistent := (Reconciler.consistent Bytes).

Lemma sortStrings_perm (keys : list string) : sortStrings keys ≡ₚ keys.
Proof. apply merge_sort_Permutation. Qed.

Lemma sortStrings_sorted (keys : list string) : Sorted String.le (sortStrings keys).
Proof. apply Sorted_merge_sort; apply _. Qed.

(** The answer, in terms of the keys and the map the loops have built. *)
Lemma reconcile_output (results : list ExemplarQueryResponse) :
  mergeExemplarQueryResponses Bytes results =
    Some (mkExemplarQueryResponse
            ((λ k, default zeroTimeSeries ((collect results).2 !! k))
               <$> sortStrings (collect results).1)).
Proof.
  pose proof (consistent_collect Bytes results) as Hc.
  unfold mergeExemplarQueryResponses.
  destruct (collect results) as [keys m] eqn:Hcol.
  destruct Hc as [Hnd Hdom Hsize Hkey]. simpl in *.
  pose proof (merge_sort_Permutation String.le keys) as Hperm.
  fold (sortStrings keys) in Hperm.
  assert (length (sortStrings keys) = size m) as Hlen by (by rewrite Hperm).
  rewrite fill_spec by (rewrite length_replicate; simpl; lia).
  simpl. rewrite drop_ge by (rewrite length_replicate; lia).
  by rewrite app_nil_r.
Qed.

Lemma collect_concat (st : acc) (results : list ExemplarQueryResponse) :
  foldl addResponse st results = foldl addSeries st (allSeries results).
Proof.
  revert st. induction results as [|r rs IH]; intros st; [done|].
  unfold allSeries. simpl. rewrite foldl_app. apply IH.
Qed.

Lemma exemplarEntry_snoc (arrived : list TimeSeries) (x : TimeSeries) :
  exemplarEntry (arrived ++ [x]) =
    match exemplarEntry arrived with
    | None => Some x
    | Some e =>
      Some (mkTimeSeries (tLabels e) (tSamples e)
              (mergeExemplarSets (tExemplars e) (tExemplars x)))
    end.
Proof.
  destruct arrived as [|first later]; simpl.
  - by destruct x.
  - by rewrite fmap_app, foldl_app.
Qed.

Lemma addSeries_lookup (st : acc) (seen : list TimeSeries) (x : TimeSeries) :
  (∀ k, st.2 !! k = exemplarEntry (filter (λ ts, identity ts = k) seen)) →
  ∀ k, (addSeries st x).2 !! k
       = exemplarEntry (filter (λ ts, identity ts = k) (seen ++ [x])).
Proof.
  destruct st as [keys m]. simpl. intros H k.
  rewrite filter_app. unfold Reconciler.addSeries.
  fold (identity x).
  destruct (decide (identity x = k)) as [<-|Hne].
  - rewrite filter_cons_True by done. rewrite filter_nil.
    rewrite exemplarEntry_snoc. rewrite <- H.
    destruct (m !! identity x) as [e|]; simpl; by rewrite lookup_insert_eq.
  - rewrite filter_cons_False by done. rewrite filter_nil, app_nil_r, <- H.
    destruct (m !! identity x) as [e|]; simpl; by rewrite lookup_insert_ne.
Qed.

Lemma foldl_addSeries_lookup (st : acc) (seen l : list TimeSeries) :
  (∀ k, st.2 !! k = exemplarEntry (filter (λ ts, identity ts = k) seen)) →
  ∀ k, (foldl addSeries st l).2 !! k
       = exemplarEntry (filter (λ ts, identity ts = k) (seen ++ l)).
Proof.
  revert st seen. induction l as [|x l IH]; intros st seen H k; simpl.
  - by rewrite app_nil_r.
  - replace (seen ++ x :: l) with ((seen ++ [x]) ++ l)
      by (by rewrite <- app_assoc).
    apply IH. by apply addSeries_lookup.
Qed.

Lemma collect_lookup (results : list ExemplarQueryResponse) (k : string) :
  (collect results).2 !! k
  = exemplarEntry (filter (λ ts, identity ts = k) (allSeries results)).
Proof.
  unfold Reconciler.collect. rewrite collect_concat.
  apply (foldl_addSeries_lookup ([], ∅) []).
  intros k'. simpl. by rewrite lookup_empty.
Qed.

(** X8. Every entry of the merged exemplar response is built from the
    series with its identity in the order the replicas' responses list
    them: it has the labels and the samples of the first one, and its
    exemplars are those of the first with the exemplars of each later one
    merged in, in turn. *)
Theorem mergeExemplarQueryResponses_entries
    (results : list ExemplarQueryResponse) :
  ∃ resp,
    mergeExemplarQueryResponses Bytes results = Some resp
    ∧ ∀ e, e ∈ xTimeseries resp →
        exemplarEntry
          (filter (λ ts, identity ts = identity e) (allSeries results))
        = Some e.
Proof.
  rewrite reconcile_output. eexists. split; [done|]. simpl.
  pose proof (consistent_collect Bytes results) as [Hnd Hdom Hsize Hkey].
  intros e (k & -> & Hk)%list_elem_of_fmap.
  rewrite sortStrings_perm in Hk.
  apply Hdom in Hk as [v Hv]. rewrite Hv. simpl.
  rewrite (Hkey k v Hv). by rewrite <- collect_lookup.
Qed.

(** X9. The series identities of the merged exemplar response, and their
    order, do not depend on the order in which the replicas' responses are
    handed to the merge. *)
Theorem mergeExemplarQueryResponses_order_free
    (results results' : list ExemplarQueryResponse) :
  results ≡ₚ results' →
  (λ resp, identity <$> xTimeseries resp)
    <$> mergeExemplarQueryResponses Bytes results
  = (λ resp, identity <$> xTimeseries resp)
    <$> mergeExemplarQueryResponses Bytes results'.
Proof.
  intros Hperm. rewrite !reconcile_output. simpl. f_equal.
  pose proof (consistent_collect Bytes results) as [Hnd Hdom _ Hkey].
  pose proof (consistent_collect Bytes results') as [Hnd' Hdom' _ Hkey'].
  rewrite !identity_lookup; try done.
  - apply (Sorted_unique String.le).
    + apply sortStrings_sorted.
    + apply sortStrings_sorted.
    + rewrite !sortStrings_perm.
      apply NoDup_Permutation; [done..|].
      intros k.
      rewrite (collect_from_keys Bytes ([], ∅) results k (consistent_empty Bytes)).
      rewrite (collect_from_keys Bytes ([], ∅) results' k (consistent_empty Bytes)).
      split; (intros [?|(r & ts & Hr & ?)]; [by left|]); right;
        exists r, ts; (split; [|done]); [by rewrite <- Hperm|by rewrite Hperm].
  - intros k Hk. apply Hdom'. by rewrite sortStrings_perm in Hk.
  - intros k Hk. apply Hdom. by rewrite sortStrings_perm in Hk.
Qed.

End Laws.

Lemma mergeExemplarQueryResponses_order_free_witness :
  (λ resp, Reconciler.identity wKey <$> xTimeseries resp)
    <$> mergeExemplarQueryResponses wKey [wRespUp; wRespBoth]
  = (λ resp, Reconciler.identity wKey <$> xTimeseries resp)
    <$> mergeExemplarQueryResponses wKey [wRespBoth; wRespUp].
Proof.
  apply (mergeExemplarQueryResponses_order_free wKey).
  apply perm_swap.
Defined.

End ReconcilerLaws.

(** ** More on the non-streaming merge *)

Module MatrixLaws.
Import Matrix MatrixFacts Arrival.
Section Laws.
Context (hash : Metric → Z).
Context (MergeSampleSets : list SamplePair → list SamplePair → list SamplePair).

Local Abbreviation Fingerprint := (Matrix.Fingerprint hash).
Local Abbreviation accumulatorOf := (Matrix.accumulatorOf hash).
Local Abbreviation addStream := (Matrix.addStream hash MergeSampleSets).
Local Abbreviation addResult := (Matrix.addResult hash MergeSampleSets).
Local Abbreviation accumulate := (Matrix.accumulate hash MergeSampleSets).
Local Abbreviation mergeResults := (Matrix.mergeResults hash MergeSampleSets).
Local Abbreviation streamEntry := (Arrival.streamEntry MergeSampleSets).

Lemma accumulate_concat (m : gmap Z SampleStream) (results : list Matrix) :
  foldl addResult m results = foldl addStream m (concat results).
Proof.
  revert m. induction results as [|r rs IH]; intros m; [done|].
  simpl. rewrite foldl_app. apply IH.
Qed.

Lemma streamEntry_snoc (arrived : list SampleStream) (x : SampleStream) :
  streamEntry (arrived ++ [x]) =
    Some (mkSampleStream
            (ssMetric (default (mkSampleStream (ssMetric x) [])
                         (streamEntry arrived)))
            (MergeSampleSets
               (ssValues (default (mkSampleStream (ssMetric x) [])
                            (streamEntry arrived)))
               (ssValues x))).
Proof.
  destruct arrived as [|first later]; simpl; [done|].
  by rewrite fmap_app, foldl_app.
Qed.

Lemma addStream_lookup (m : gmap Z SampleStream) (seen : list SampleStream)
    (x : SampleStream) :
  (∀ k, m !! k = streamEntry (filter (λ ss, accumulatorOf ss = k) seen)) →
  ∀ k, addStream m x !! k
       = streamEntry (filter (λ ss, accumulatorOf ss = k) (seen ++ [x])).
Proof.
  intros H k. rewrite filter_app. unfold Matrix.addStream.
  fold (accumulatorOf x).
  destruct (decide (accumulatorOf x = k)) as [<-|Hne].
  - rewrite filter_cons_True by done. rewrite filter_nil.
    rewrite streamEntry_snoc, <- H, lookup_insert_eq.
    by destruct (m !! accumulatorOf x).
  - rewrite filter_cons_False by done.
    by rewrite filter_nil, app_nil_r, <- H, lookup_insert_ne.
Qed.

Lemma foldl_addStream_lookup (m : gmap Z SampleStream)
    (seen l : list SampleStream) :
  (∀ k, m !! k = streamEntry (filter (λ ss, accumulatorOf ss = k) seen)) →
  ∀ k, foldl addStream m l !! k
       = streamEntry (filter (λ ss, accumulatorOf ss = k) (seen ++ l)).
Proof.
  revert m seen. induction l as [|x l IH]; intros m seen H k; simpl.
  - by rewrite app_nil_r.
  - replace (seen ++ x :: l) with ((seen ++ [x]) ++ l)
      by (by rewrite <- app_assoc).
    apply IH. by apply addStream_lookup.
Qed.

Lemma accumulate_lookup (results : list Matrix) (k : Z) :
  accumulate results !! k
  = streamEntry (filter (λ ss, accumulatorOf ss = k) (concat results)).
Proof.
  unfold Matrix.accumulate. rewrite accumulate_concat.
  apply (foldl_addStream_lookup ∅ []). intros k'. by rewrite lookup_empty.
Qed.

(** X10. The matrix [queryIngesters] returns holds exactly the entries
    built, fingerprint by fingerprint, from the streams with that
    fingerprint in the order the results list them: the label set of the
    first one, and the values of all of them merged by [MergeSampleSets]
    one after the other, starting from the empty slice.  With no results
    the matrix is empty. *)
Theorem mergeResults_entries (results : list Matrix) :
  (∀ o, o ∈ mergeResults results ↔
        ∃ k, streamEntry (filter (λ ss, accumulatorOf ss = k) (concat results))
             = Some o)
  ∧ mergeResults [] = [].
Proof.
  split; [|done]. intros o. unfold Matrix.mergeResults.
  rewrite list_elem_of_fmap. split.
  - intros ([k v] & -> & Hin%elem_of_map_to_list). exists k.
    by rewrite <- accumulate_lookup.
  - intros (k & Hk). exists (k, o). split; [done|].
    apply elem_of_map_to_list. by rewrite accumulate_lookup.
Qed.

(** X11. No two series of the matrix [queryIngesters] returns have the
    same label set, whatever the fingerprints do and however many replicas
    returned the same series. *)
Theorem mergeResults_label_sets_distinct (results : list Matrix) :
  NoDup (ssMetric <$> mergeResults results).
Proof.
  pose proof (tracks_accumulate hash MergeSampleSets results) as [Hfp Hsrc Hkeys].
  apply (NoDup_fmap_1 Fingerprint). rewrite <- list_fmap_compose.
  assert ((Fingerprint ∘ ssMetric) <$> mergeResults results
          = (map_to_list (accumulate results)).*1) as ->.
  { unfold Matrix.mergeResults. rewrite <- list_fmap_compose.
    apply list_fmap_ext. intros i [k v] Hl. simpl.
    apply list_elem_of_lookup_2, elem_of_map_to_list in Hl. by apply Hfp. }
  apply NoDup_fst_map_to_list.
Qed.

(** X12. When no two different label sets among the replicas' results
    share a fingerprint, the label sets of the matrix [queryIngesters]
    returns are exactly the label sets the replicas returned. *)
Theorem mergeResults_label_sets (results : list Matrix) :
  (∀ ss1 ss2, ss1 ∈ concat results → ss2 ∈ concat results →
     accumulatorOf ss1 = accumulatorOf ss2 → ssMetric ss1 = ssMetric ss2) →
  ∀ m, m ∈ ssMetric <$> mergeResults results ↔
       ∃ ss, ss ∈ concat results ∧ ssMetric ss = m.
Proof.
  intros Hinj.
  pose proof (tracks_accumulate hash MergeSampleSets results) as [Hfp Hsrc Hkeys].
  intros m. unfold Matrix.mergeResults. rewrite <- list_fmap_compose.
  rewrite list_elem_of_fmap. split.
  - intros ([k v] & -> & Hin%elem_of_map_to_list). simpl.
    destruct (Hsrc k v Hin) as (ss & Hss & Heq). eauto.
  - intros (ss & Hss & <-).
    destruct (proj2 (Hkeys (accumulatorOf ss))) as [v Hv]; [eauto|].
    exists (accumulatorOf ss, v). split; [|by apply elem_of_map_to_list].
    simpl. destruct (Hsrc _ v Hv) as (ss' & Hss' & Heq). rewrite Heq.
    symmetry. apply Hinj; [done..|].
    unfold Matrix.accumulatorOf. rewrite <- Heq. by apply (Hfp _ v Hv).
Qed.

End Laws.

Lemma mergeResults_label_sets_witness :
  wMetricUpJob ∈ ssMetric <$> Matrix.mergeResults wHash app wMatrices ↔
  ∃ ss, ss ∈ concat wMatrices ∧ ssMetric ss = wMetricUpJob.
Proof.
  apply (mergeResults_label_sets wHash app wMatrices).
  intros ss1 ss2 H1%list_elem_of_In H2%list_elem_of_In. simpl in H1, H2.
  destruct H1 as [<-|[<-|[<-|[]]]]; destruct H2 as [<-|[<-|[<-|[]]]];
    intros H; first [reflexivity | vm_compute in H; discriminate H].
Defined.

End MatrixLaws.

(** ** The two replica selectors *)

Module SelectorLaws.
Import Selector MetadataSelector.
Section Laws.
Context {Ctx Ring ReplicationSet : Type}.
Context (TenantID : Ctx → error + string).
Context (ShardingStrategyShuffle : string).
Context (IngestionTenantShardSize : string → Z).
Context (ShuffleShardWithLookback : Ring → string → Z → Z → Z → Ring).
Context (GetReplicationSetForOperation : Ring → Operation → error + ReplicationSet).
Context (Get : Ring → Z → Operation → error + ReplicationSet).
Context (shardByMetricName : string → string → Z).
Context (MetricNameMatcherFromMatchers : list Matcher → option Matcher).

Local Abbreviation GetIngestersForQuery :=
  (Selector.GetIngestersForQuery TenantID ShardingStrategyShuffle
     IngestionTenantShardSize ShuffleShardWithLookback
     GetReplicationSetForOperation Get shardByMetricName
     MetricNameMatcherFromMatchers).
Local Abbreviation GetIngestersForMetadata :=
  (MetadataSelector.GetIngestersForMetadata TenantID ShardingStrategyShuffle
     IngestionTenantShardSize ShuffleShardWithLookback
     GetReplicationSetForOperation).

(** X13. Asked without matchers, as [QueryExemplars] does,
    [GetIngestersForQuery] answers as [GetIngestersForMetadata] does: the
    tenant error, the tenant's shuffle-sharded subring, or the full ring,
    never the metric-name shortcut.  With shard-by-all-labels on the two
    agree for every list of matchers. *)
Theorem GetIngestersForQuery_as_metadata (d : @Distributor Ring) (ctx : Ctx)
    (now : Z) (matchers : list Matcher) :
  GetIngestersForQuery d ctx now [] = GetIngestersForMetadata d ctx now
  ∧ GetIngestersForQuery
      (mkDistributor
         (mkConfig (ShardingStrategy (cfg d))
            (ShuffleShardingLookbackPeriod (cfg d)) true)
         (ingestersRing d)) ctx now matchers
    = GetIngestersForMetadata d ctx now.
Proof.
  unfold Selector.GetIngestersForQuery, MetadataSelector.GetIngestersForMetadata.
  simpl. rewrite andb_false_r.
  destruct (TenantID ctx) as [err|userID]; [done|].
  destruct (decide (ShardingStrategy (cfg d) = ShardingStrategyShuffle)); [|done].
  by destruct ((IngestionTenantShardSize userID >? 0)
               && (ShuffleShardingLookbackPeriod (cfg d) >? 0)).
Qed.

End Laws.
End SelectorLaws.

(** ** More on the per-replica callbacks *)

Module CallbackLaws.
Import Callback CallbackFacts Forwarding.
Local Open Scope callback_scope.

Lemma count_inc_ne (addr addr' : string) (c : gmap string nat) :
  addr' ≠ addr → count addr' (inc addr c) = count addr' c.
Proof. intros H. unfold count, inc. by rewrite lookup_insert_ne. Qed.

(** X14. The callback of [queryIngesters] touches the counters of its own
    replica only; it counts a query exactly when a client was obtained and
    a failure exactly when the call then failed, and it returns the error
    of the first step that failed, or the reply. *)
Theorem queryCallback_counters {R : Type} (addr : string)
    (client : error + unit) (reply : error + R) (m : Metrics) :
  (∀ addr', addr' ≠ addr →
     count addr' (ingesterQueries (queryCallback addr client reply m).1)
       = count addr' (ingesterQueries m)
     ∧ count addr' (ingesterQueryFailures (queryCallback addr client reply m).1)
       = count addr' (ingesterQueryFailures m))
  ∧ count addr (ingesterQueries (queryCallback addr client reply m).1)
    = (count addr (ingesterQueries m)
       + if client is inr _ then 1 else 0)%nat
  ∧ count addr (ingesterQueryFailures (queryCallback addr client reply m).1)
    = (count addr (ingesterQueryFailures m)
       + match client, reply with inr _, inl _ => 1 | _, _ => 0 end)%nat
  ∧ (queryCallback addr client reply m).2
    = match client with inl err => inl err | inr _ => reply end.
Proof.
  destruct client as [err|[]]; [simpl; repeat split; lia|].
  destruct reply as [err|resp]; simpl; rewrite ?count_inc.
  - split; [intros addr' Hne; by rewrite !count_inc_ne|]. repeat split; lia.
  - split; [intros addr' Hne; by rewrite !count_inc_ne|]. repeat split; lia.
Qed.

Section Stream.
Context {Limiter : Type}.
Context (AddChunks : Z → Limiter → Limiter * option string).
Context (AddSeries : Labels → Limiter → Limiter * option string).
Context (AddChunkBytes : Z → Limiter → Limiter * option string).
Context (AddDataBytes : Z → Limiter → Limiter * option string).
Context (ChunksCount ChunksSize Size : QueryStreamResponse → Z).

Local Abbreviation World := (@Callback.World Limiter).
Local Abbreviation handleMessage :=
  (Callback.handleMessage AddChunks AddSeries AddChunkBytes AddDataBytes
     ChunksCount ChunksSize Size).
Local Abbreviation recvLoop :=
  (Callback.recvLoop AddChunks AddSeries AddChunkBytes AddDataBytes
     ChunksCount ChunksSize Size).
Local Abbreviation streamCallback :=
  (Callback.streamCallback AddChunks AddSeries AddChunkBytes AddDataBytes
     ChunksCount ChunksSize Size).
Local Abbreviation handleMessage_run :=
  (CallbackFacts.handleMessage_run AddChunks AddSeries AddChunkBytes
     AddDataBytes ChunksCount ChunksSize Size).

(** What handling a run of messages does to the counters and the channels:
    the counters stay, and the batches of the messages up to the first one
    that failed a check, and of no other, have been sent. *)
Lemma forEach_handleMessage (msgs : list QueryStreamResponse) (w : World) :
  metrics (forEach handleMessage msgs w).1 = metrics w
  ∧ ∃ n, (n ≤ length msgs)%nat
      ∧ sent (forEach handleMessage msgs w).1
        = sent w ++ concat (pushes <$> take n msgs)
      ∧ match (forEach handleMessage msgs w).2 with
        | inr _ => n = length msgs
        | inl err => ∃ msg, err = LimitError msg
        end.
Proof.
  revert w. induction msgs as [|resp msgs IH]; intros w.
  - simpl. split; [done|]. exists 0%nat. by rewrite app_nil_r.
  - cbn [forEach]. unfold bind. rewrite handleMessage_run.
    destruct (firstFailure _ (limiter w)) as [l [msg|]].
    + simpl. split; [done|]. exists 0%nat. rewrite app_nil_r.
      split; [lia|]. split; [done|]. eauto.
    + specialize (IH (mkWorld l (metrics w) (sent w ++ pushes resp))).
      destruct IH as (Hm & n & Hn & Hs & Hr). simpl in Hm, Hs.
      split; [done|]. exists (S n). simpl. split; [lia|].
      split; [by rewrite Hs, <- app_assoc|].
      destruct (forEach _ _ _).2; [done|by f_equal].
Qed.

Lemma recvLoop_run (addr : string) (msgs : list QueryStreamResponse)
    (closing : error) (w : World) :
  recvLoop addr msgs closing w =
    (forEach handleMessage msgs ;; recvLoop addr [] closing) w.
Proof.
  rewrite <- (app_nil_r msgs) at 1.
  apply (recvLoop_app AddChunks AddSeries AddChunkBytes AddDataBytes
           ChunksCount ChunksSize Size).
Qed.

(** X15. The receive loop of the streaming callback leaves the query
    counters and the failure counters of other replicas alone.  It raises
    the failure counter of its replica by one exactly when every message
    passed its checks and the stream then ended with an error that is
    neither [io.EOF] nor a canceled context, and by nothing otherwise: a
    limit violation is returned as a limit error and counts no failure. *)
Theorem recvLoop_failure_counter (addr : string)
    (msgs : list QueryStreamResponse) (closing : error) (w : World) :
  ingesterQueries (metrics (recvLoop addr msgs closing w).1)
    = ingesterQueries (metrics w)
  ∧ (∀ addr', addr' ≠ addr →
       count addr' (ingesterQueryFailures (metrics (recvLoop addr msgs closing w).1))
       = count addr' (ingesterQueryFailures (metrics w)))
  ∧ count addr (ingesterQueryFailures (metrics (recvLoop addr msgs closing w).1))
    = (count addr (ingesterQueryFailures (metrics w))
       + match (forEach handleMessage msgs w).2, closing with
         | inl _, _ => 0
         | inr _, EOF => 0
         | inr _, err => if IsGRPCContextCanceled err then 0 else 1
         end)%nat
  ∧ (recvLoop addr msgs closing w).2
    = match (forEach handleMessage msgs w).2, closing with
      | inl err, _ => inl err
      | inr _, EOF => inr tt
      | inr _, err => inl err
      end
  ∧ match (forEach handleMessage msgs w).2 with
    | inl err => ∃ msg, err = LimitError msg
    | inr _ => True
    end.
Proof.
  rewrite recvLoop_run. unfold bind.
  pose proof (forEach_handleMessage msgs w) as (Hm & n & _ & _ & Hr).
  destruct (forEach handleMessage msgs w) as [w1 [err|[]]]; simpl in *.
  { rewrite Hm. repeat split; try done; lia. }
  destruct closing as [|code msg|msg|msg]; simpl; rewrite ?Hm.
  - repeat split; try done; lia.
  - destruct (code =? 1) eqn:Hc; simpl; rewrite ?Hm, ?count_inc.
    + repeat split; try done; lia.
    + split; [done|]. split; [intros ??; by rewrite count_inc_ne|].
      repeat split; try done; lia.
  - rewrite count_inc. split; [done|].
    split; [intros ??; by rewrite count_inc_ne|]. repeat split; try done; lia.
  - rewrite count_inc. split; [done|].
    split; [intros ??; by rewrite count_inc_ne|]. repeat split; try done; lia.
Qed.

Lemma pushes_data (resp : QueryStreamResponse) :
  chunkSeriesOf (pushes resp) = rChunkseries resp
  ∧ timeSeriesOf (pushes resp) = rTimeseries resp
  ∧ Forall nonEmptyBatch (pushes resp).
Proof.
  unfold pushes, chunkSeriesOf, timeSeriesOf.
  destruct (rChunkseries resp) as [|c cs]; destruct (rTimeseries resp) as [|t ts];
    simpl; rewrite ?app_nil_r; repeat split; repeat constructor; done.
Qed.

Lemma chunkSeriesOf_app (ps qs : list Push) :
  chunkSeriesOf (ps ++ qs) = chunkSeriesOf ps ++ chunkSeriesOf qs.
Proof. unfold chunkSeriesOf. by rewrite fmap_app, concat_app. Qed.

Lemma timeSeriesOf_app (ps qs : list Push) :
  timeSeriesOf (ps ++ qs) = timeSeriesOf ps ++ timeSeriesOf qs.
Proof. unfold timeSeriesOf. by rewrite fmap_app, concat_app. Qed.

Lemma pushes_concat_data (msgs : list QueryStreamResponse) :
  chunkSeriesOf (concat (pushes <$> msgs)) = concat (rChunkseries <$> msgs)
  ∧ timeSeriesOf (concat (pushes <$> msgs)) = concat (rTimeseries <$> msgs)
  ∧ Forall nonEmptyBatch (concat (pushes <$> msgs)).
Proof.
  induction msgs as [|resp msgs (IHc & IHt & IHn)]; [by repeat split|].
  rewrite !fmap_cons. cbn [concat].
  rewrite chunkSeriesOf_app, timeSeriesOf_app, IHc, IHt.
  pose proof (pushes_data resp) as (-> & -> & Hn).
  repeat split; try done. by apply Forall_app.
Qed.

(** X16. What the receive loop puts on the channels is, after what was
    there, the chunk-series and the time-series of the first [n] messages
    of the stream, in order, in batches none of which is empty; [n] counts
    all the messages when the loop ends without a limit violation, and
    otherwise the messages before the one that broke a limit. *)
Theorem recvLoop_forwards (addr : string)
    (msgs : list QueryStreamResponse) (closing : error) (w : World) :
  ∃ n ps,
    (n ≤ length msgs)%nat
    ∧ sent (recvLoop addr msgs closing w).1 = sent w ++ ps
    ∧ Forall nonEmptyBatch ps
    ∧ chunkSeriesOf ps = concat (rChunkseries <$> take n msgs)
    ∧ timeSeriesOf ps = concat (rTimeseries <$> take n msgs)
    ∧ match (forEach handleMessage msgs w).2 with
      | inr _ => n = length msgs
      | inl _ => (recvLoop addr msgs closing w).2
                 = (forEach handleMessage msgs w).2
      end.
Proof.
  rewrite recvLoop_run. unfold bind.
  pose proof (forEach_handleMessage msgs w) as (Hm & n & Hn & Hs & Hr).
  pose proof (pushes_concat_data (take n msgs)) as (Hc & Ht & Hne).
  exists n, (concat (pushes <$> take n msgs)).
  destruct (forEach handleMessage msgs w) as [w1 [err|[]]]; cbn [fst snd] in *.
  { repeat split; done. }
  split; [done|].
  assert (sent (recvLoop addr [] closing w1).1 = sent w1) as ->.
  { destruct closing; simpl; try done; by destruct (negb _). }
  repeat split; done.
Qed.

End Stream.
End CallbackLaws.

(** ** More on the streaming aggregator *)

Module EngineLaws.
Import Callback Engine EngineFacts Aggregated.
Import Merge MergeFacts.

(** Case analysis on a step that was taken. *)
Ltac step_inv H :=
  unfold Engine.step in H;
  repeat match type of H with
         | None = Some _ => discriminate H
         | Some _ = Some _ => injection H as H; subst
         | context [decide ?P] => destruct (decide P)
         | context [match ?x with _ => _ end] => destruct x eqn:?
         end.

Lemma chunkEntry_chunks (arrived : list TimeSeriesChunk) :
  csChunks (default zeroTimeSeriesChunk (chunkEntry arrived))
  = concat (csChunks <$> arrived).
Proof.
  unfold chunkEntry. destruct (last arrived) eqn:Hl; [done|].
  apply last_None in Hl. by subst.
Qed.

Lemma timeEntry_samples (arrived : list TimeSeries) :
  tSamples (default zeroTimeSeries (timeEntry arrived))
  = foldl mergeSamples [] (tSamples <$> arrived)
  ∧ tExemplars (default zeroTimeSeries (timeEntry arrived)) = [].
Proof.
  unfold timeEntry. destruct (last arrived) eqn:Hl; [done|].
  apply last_None in Hl. by subst.
Qed.

Lemma foldl_foldl_concat {A B : Type} (f : B → A → B) (b : B) (ls : list (list A)) :
  foldl (λ b l, foldl f b l) b ls = foldl f b (concat ls).
Proof.
  revert b. induction ls as [|l ls IH]; intros b; [done|].
  simpl. rewrite foldl_app. apply IH.
Qed.

Section Laws.
Context (LabelsToKeyString : Labels → string).

Local Abbreviation addChunkSeries := (Engine.addChunkSeries LabelsToKeyString).
Local Abbreviation addTimeSeries := (Engine.addTimeSeries LabelsToKeyString).
Local Abbreviation step := (Engine.step LabelsToKeyString).
Local Abbreviation run := (Engine.run LabelsToKeyString).
Local Abbreviation aggregateCS := (Aggregated.aggregateCS LabelsToKeyString).
Local Abbreviation aggregateTS := (Aggregated.aggregateTS LabelsToKeyString).
Local Abbreviation keyCS := (λ series, LabelsToKeyString (csLabels series)).
Local Abbreviation keyTS := (λ series, LabelsToKeyString (tLabels series)).

Lemma addChunkSeries_lookup (m : gmap string TimeSeriesChunk)
    (seen : list TimeSeriesChunk) (x : TimeSeriesChunk) :
  (∀ k, m !! k = chunkEntry (filter (λ c, keyCS c = k) seen)) →
  ∀ k, addChunkSeries m x !! k
       = chunkEntry (filter (λ c, keyCS c = k) (seen ++ [x])).
Proof.
  intros H k. rewrite filter_app. unfold Engine.addChunkSeries.
  destruct (decide (keyCS x = k)) as [<-|Hne].
  - rewrite filter_cons_True by done. rewrite filter_nil, lookup_insert_eq.
    rewrite H, chunkEntry_chunks. unfold chunkEntry.
    by rewrite last_snoc, fmap_app, concat_app; simpl; rewrite app_nil_r.
  - rewrite filter_cons_False by done.
    by rewrite filter_nil, app_nil_r, <- H, lookup_insert_ne.
Qed.

Lemma foldl_addChunkSeries_lookup (m : gmap string TimeSeriesChunk)
    (seen l : list TimeSeriesChunk) :
  (∀ k, m !! k = chunkEntry (filter (λ c, keyCS c = k) seen)) →
  ∀ k, foldl addChunkSeries m l !! k
       = chunkEntry (filter (λ c, keyCS c = k) (seen ++ l)).
Proof.
  revert m seen. induction l as [|x l IH]; intros m seen H k; simpl.
  - by rewrite app_nil_r.
  - replace (seen ++ x :: l) with ((seen ++ [x]) ++ l)
      by (by rewrite <- app_assoc).
    apply IH. by apply addChunkSeries_lookup.
Qed.

(** X17. After the aggregator has received batches from [chCS], the entry
    of [hashToChunkseries] under a key holds the chunks of all received
    chunk-series with that key, one list after the other in the order
    received, none dropped and none deduplicated, under the labels of the
    last of them; a key no received series has is absent. *)
Theorem aggregateCS_entries (received : list (list TimeSeriesChunk)) (k : string) :
  aggregateCS received !! k
  = chunkEntry (filter (λ c, keyCS c = k) (concat received)).
Proof.
  unfold Aggregated.aggregateCS. rewrite foldl_foldl_concat.
  apply (foldl_addChunkSeries_lookup ∅ []). intros k'. by rewrite lookup_empty.
Qed.

Lemma addTimeSeries_lookup (m : gmap string TimeSeries)
    (seen : list TimeSeries) (x : TimeSeries) :
  (∀ k, m !! k = timeEntry (filter (λ c, keyTS c = k) seen)) →
  ∀ k, addTimeSeries m x !! k
       = timeEntry (filter (λ c, keyTS c = k) (seen ++ [x])).
Proof.
  intros H k. rewrite filter_app. unfold Engine.addTimeSeries.
  destruct (decide (keyTS x = k)) as [<-|Hne].
  - rewrite filter_cons_True by done. rewrite filter_nil, lookup_insert_eq.
    rewrite H.
    pose proof (timeEntry_samples (filter (λ c, keyTS c = keyTS x) seen))
      as [-> ->].
    unfold timeEntry. rewrite last_snoc, fmap_app, foldl_app. simpl.
    do 2 f_equal.
    destruct (foldl mergeSamples [] _) eqn:Hf; [|done].
    by rewrite mergeSamples_nil_l.
  - rewrite filter_cons_False by done.
    by rewrite filter_nil, app_nil_r, <- H, lookup_insert_ne.
Qed.

Lemma foldl_addTimeSeries_lookup (m : gmap string TimeSeries)
    (seen l : list TimeSeries) :
  (∀ k, m !! k = timeEntry (filter (λ c, keyTS c = k) seen)) →
  ∀ k, foldl addTimeSeries m l !! k
       = timeEntry (filter (λ c, keyTS c = k) (seen ++ l)).
Proof.
  revert m seen. induction l as [|x l IH]; intros m seen H k; simpl.
  - by rewrite app_nil_r.
  - replace (seen ++ x :: l) with ((seen ++ [x]) ++ l)
      by (by rewrite <- app_assoc).
    apply IH. by apply addTimeSeries_lookup.
Qed.

(** X18. After the aggregator has received batches from [chTS], the entry
    of [hashToTimeSeries] under a key holds the samples of all received
    time-series with that key, merged by [mergeSamples] one after the other
    in the order received, under the labels of the last of them, and it
    holds no exemplars: the exemplars of received series are not carried
    over. *)
Theorem aggregateTS_entries (received : list (list TimeSeries)) (k : string) :
  aggregateTS received !! k
  = timeEntry (filter (λ c, keyTS c = k) (concat received)).
Proof.
  unfold Aggregated.aggregateTS. rewrite foldl_foldl_concat.
  apply (foldl_addTimeSeries_lookup ∅ []). intros k'. by rewrite lookup_empty.
Qed.

(** *** Ascending samples *)

Lemma ascending_addTimeSeries (m : gmap string TimeSeries) (x : TimeSeries) :
  (∀ k e, m !! k = Some e → ascendingSeries e) → ascendingSeries x →
  ∀ k e, addTimeSeries m x !! k = Some e → ascendingSeries e.
Proof.
  intros Hm Hx k e. unfold Engine.addTimeSeries.
  destruct (decide (keyTS x = k)) as [<-|Hne].
  - rewrite lookup_insert_eq. intros [= <-]. unfold ascendingSeries. simpl.
    destruct (m !! keyTS x) as [existing|] eqn:Hl; simpl; [|done].
    specialize (Hm _ _ Hl). unfold ascendingSeries in Hm.
    destruct (tSamples existing) as [|s0 rest] eqn:Hs; [done|].
    unfold mergeSamples. destruct (sameSamples _ _); [done|].
    rewrite run_merge. by apply strict_merge.
  - rewrite lookup_insert_ne by done. apply Hm.
Qed.

Lemma ascending_foldl (m : gmap string TimeSeries) (batch : list TimeSeries) :
  (∀ k e, m !! k = Some e → ascendingSeries e) → Forall ascendingSeries batch →
  ∀ k e, foldl addTimeSeries m batch !! k = Some e → ascendingSeries e.
Proof.
  revert m. induction batch as [|x batch IH]; intros m Hm Hb; [done|].
  apply Forall_cons in Hb as [Hx Hb]. simpl. apply IH; [|done].
  by apply ascending_addTimeSeries.
Qed.

Lemma replicas_rest {P : Push → Prop} (reps : list (list Push)) (i : nat)
    (p : Push) (rest : list Push) :
  Forall (Forall P) reps → reps !! i = Some (p :: rest) →
  P p ∧ Forall (Forall P) (<[i := rest]> reps).
Proof.
  intros Hreps Hl.
  pose proof (list_elem_of_lookup_2 _ _ _ Hl) as Hin.
  apply (proj1 (Forall_forall _ _) Hreps) in Hin.
  apply Forall_cons in Hin as [Hp Hrest].
  split; [done|]. by apply Forall_insert.
Qed.

Lemma ascendingState_step c s s' :
  step c s = Some s' → ascendingState s → ascendingState s'.
Proof.
  intros Hstep (Hreps & Hch & Hmap). unfold ascendingState.
  destruct c; step_inv Hstep; simpl in *; try done;
    try match goal with H : replicas s !! _ = Some _ |- _ =>
          destruct (replicas_rest _ _ _ _ Hreps H) as [Hp Hins] end;
    try match type of Hch with Forall _ (_ :: _) =>
          apply Forall_cons in Hch as [Hb Hq] end;
    (split; [done|]);
    (split; [first [done | apply Forall_app; split; [done|by constructor]]|]);
    first [done | by apply ascending_foldl].
Qed.

(** X19. When every time-series the callbacks send has its samples in
    strictly ascending timestamp order, so has every entry of
    [hashToTimeSeries] in every state the engine reaches: the aggregator
    keeps each merged series sorted and free of duplicate timestamps. *)
Theorem aggregator_keeps_samples_ascending (pending : list (list Push))
    (schedule : list Choice) (s : State) :
  Forall (Forall ascendingPush) pending →
  run schedule (initial pending) = Some s →
  ∀ k e, hashToTimeSeries s !! k = Some e →
         strict sTimestampMs (tSamples e)
         ∧ distinct sTimestampMs (tSamples e).
Proof.
  intros Hp Hrun.
  assert (ascendingState s) as (_ & _ & Hmap).
  { eapply (run_invariant LabelsToKeyString ascendingState);
      [apply ascendingState_step|exact Hrun|].
    split; [done|]. split; [constructor|]. intros k e. simpl.
    by rewrite lookup_empty. }
  intros k e He. specialize (Hmap k e He).
  split; [done|]. by apply strict_distinct.
Qed.

End Laws.

Lemma wStateTS_run :
  Engine.run wKey wScheduleTS (initial wPendingTS) = Some wStateTS.
Proof. reflexivity. Qed.

Lemma aggregator_keeps_samples_ascending_witness :
  strict sTimestampMs (mergeSamples wA wB)
  ∧ distinct sTimestampMs (mergeSamples wA wB).
Proof.
  apply (aggregator_keeps_samples_ascending wKey wPendingTS wScheduleTS wStateTS)
    with (k := "up") (e := mkTimeSeries [("__name__", "up")] (mergeSamples wA wB) []).
  - repeat constructor; vm_compute; reflexivity.
  - reflexivity.
  - reflexivity.
Defined.

End EngineLaws.

(** ** Accounting for the batches of a streaming query *)

Module EngineAccounts.
Import Callback Engine EngineFacts Aggregated Accounting EngineLaws.

Lemma concat_insert_rest (reps : list (list Push)) (i : nat) (p : Push)
    (rest : list Push) :
  reps !! i = Some (p :: rest) →
  concat reps ≡ₚ p :: concat (<[i := rest]> reps).
Proof.
  intros Hl. pose proof (lookup_lt_Some _ _ _ Hl) as Hlt.
  rewrite insert_take_drop by done.
  rewrite <- (take_drop_middle reps i (p :: rest) Hl) at 1.
  rewrite !concat_app. simpl.
  by rewrite <- Permutation_middle.
Qed.

Lemma batches_after_send (reps : list (list Push)) (i : nat) (p : Push)
    (rest : list Push) :
  reps !! i = Some (p :: rest) →
  batchesCS (concat reps) ≡ₚ batchesCS [p] ++ batchesCS (concat (<[i := rest]> reps))
  ∧ batchesTS (concat reps) ≡ₚ batchesTS [p] ++ batchesTS (concat (<[i := rest]> reps)).
Proof.
  intros Hl. pose proof (concat_insert_rest reps i p rest Hl) as Hperm.
  unfold batchesCS, batchesTS. rewrite <- !omap_app.
  split; apply omap_Permutation; exact Hperm.
Qed.

Section Laws.
Context (LabelsToKeyString : Labels → string).

Local Abbreviation step := (Engine.step LabelsToKeyString).
Local Abbreviation run := (Engine.run LabelsToKeyString).
Local Abbreviation aggregateCS := (Aggregated.aggregateCS LabelsToKeyString).
Local Abbreviation aggregateTS := (Aggregated.aggregateTS LabelsToKeyString).
Local Abbreviation accounted := (Accounting.accounted LabelsToKeyString).

Lemma aggregateCS_snoc received cs :
  aggregateCS (received ++ [cs])
  = foldl (addChunkSeries LabelsToKeyString) (aggregateCS received) cs.
Proof. unfold Aggregated.aggregateCS. by rewrite foldl_app. Qed.

Lemma aggregateTS_snoc received ts :
  aggregateTS (received ++ [ts])
  = foldl (addTimeSeries LabelsToKeyString) (aggregateTS received) ts.
Proof. unfold Aggregated.aggregateTS. by rewrite foldl_app. Qed.

Lemma accounted_step pending c s s' :
  step c s = Some s' → accounted pending s → accounted pending s'.
Proof.
  intros Hstep (rcs & rts & Hcs & Hts & Pcs & Pts). unfold Accounting.accounted.
  destruct c; step_inv Hstep; simpl in *;
    try (by exists rcs, rts);
    try match goal with H : replicas s !! _ = Some _ |- _ =>
          destruct (batches_after_send _ _ _ _ H) as [Hbc Hbt];
          simpl in Hbc, Hbt
        end;
    try match goal with H : chCS s = _ :: _ |- _ => rewrite H in Pcs end;
    try match goal with H : chTS s = _ :: _ |- _ => rewrite H in Pts end;
    first
      [ (* a batch is sent: it moves from the callback to its channel *)
        exists rcs, rts; (split; [done|]); (split; [done|]);
        split;
        (etrans; [|first [exact Pcs | exact Pts]]);
        apply Permutation_app_head; rewrite <- ?app_assoc;
        apply Permutation_app_head; by symmetry
      | (* the aggregator receives a chunk-series batch *)
        match goal with H : chCS s = ?cs :: _ |- _ => exists (rcs ++ [cs]), rts end;
        (split; [by rewrite aggregateCS_snoc, Hcs|]); (split; [done|]);
        (split; [|done]); by rewrite <- app_assoc
      | (* the aggregator receives a time-series batch *)
        match goal with H : chTS s = ?ts :: _ |- _ => exists rcs, (rts ++ [ts]) end;
        (split; [done|]); (split; [by rewrite aggregateTS_snoc, Hts|]);
        (split; [done|]); by rewrite <- app_assoc ].
Qed.

Lemma accounted_initial pending : accounted pending (initial pending).
Proof. exists [], []. by repeat split. Qed.

Lemma allReturned_concat (s : State) :
  allReturned s = true → concat (replicas s) = [].
Proof.
  unfold allReturned. induction (replicas s) as [|r reps IH]; [done|].
  simpl. destruct r; [|done]. simpl. apply IH.
Qed.

(** X21. In every state the engine reaches, the two maps are what the
    aggregator gets by receiving some batches in some order, and those
    batches, the batches queued on the channels and the batches the
    callbacks have yet to send are together exactly the batches the
    callbacks were to send: none is made up and none is counted twice.
    So once every callback has returned and a channel is empty, every
    batch for that channel has been folded in. *)
Theorem batches_accounted (pending : list (list Push))
    (schedule : list Choice) (s : State) :
  run schedule (initial pending) = Some s →
  ∃ receivedCS receivedTS,
    hashToChunkseries s = aggregateCS receivedCS
    ∧ hashToTimeSeries s = aggregateTS receivedTS
    ∧ receivedCS ++ chCS s ++ batchesCS (concat (replicas s))
      ≡ₚ batchesCS (concat pending)
    ∧ receivedTS ++ chTS s ++ batchesTS (concat (replicas s))
      ≡ₚ batchesTS (concat pending)
    ∧ (allReturned s = true → chCS s = [] →
       receivedCS ≡ₚ batchesCS (concat pending))
    ∧ (allReturned s = true → chTS s = [] →
       receivedTS ≡ₚ batchesTS (concat pending)).
Proof.
  intros Hrun.
  assert (accounted pending s) as (rcs & rts & Hcs & Hts & Pcs & Pts).
  { eapply (run_invariant LabelsToKeyString (accounted pending));
      [apply accounted_step|exact Hrun|apply accounted_initial]. }
  exists rcs, rts. repeat split; try done.
  - intros Hall Hq. rewrite (allReturned_concat s Hall), Hq in Pcs.
    simpl in Pcs. by rewrite app_nil_r in Pcs.
  - intros Hall Hq. rewrite (allReturned_concat s Hall), Hq in Pts.
    simpl in Pts. by rewrite app_nil_r in Pts.
Qed.

End Laws.

Lemma batches_accounted_witness :
  ∃ receivedCS receivedTS,
    hashToChunkseries wState = Aggregated.aggregateCS wKey receivedCS
    ∧ hashToTimeSeries wState = Aggregated.aggregateTS wKey receivedTS
    ∧ receivedCS ++ chCS wState ++ batchesCS (concat (replicas wState))
      ≡ₚ batchesCS (concat wPending)
    ∧ receivedTS ++ chTS wState ++ batchesTS (concat (replicas wState))
      ≡ₚ batchesTS (concat wPending)
    ∧ (allReturned wState = true → chCS wState = [] →
       receivedCS ≡ₚ batchesCS (concat wPending))
    ∧ (allReturned wState = true → chTS wState = [] →
       receivedTS ≡ₚ batchesTS (concat wPending)).
Proof.
  apply (batches_accounted wKey wPending wSchedule wState).
  reflexivity.
Defined.

End EngineAccounts.

(** ** The response of a streaming query *)

Module EngineResponse.
Import Callback Engine EngineFacts Aggregated Accounting EngineLaws EngineAccounts.

(** The values a map enumerates are its entries, each once. *)
Lemma elem_of_map_values {V : Type} (m : gmap string V) (e : V) :
  e ∈ (map_to_list m).*2 ↔ ∃ k, m !! k = Some e.
Proof.
  rewrite list_elem_of_fmap. split.
  - intros ([k v] & -> & Hin). exists k. by apply elem_of_map_to_list.
  - intros (k & Hk). exists (k, e). split; [done|]. by apply elem_of_map_to_list.
Qed.

Section Laws.
Context (LabelsToKeyString : Labels → string).

Local Abbreviation step := (Engine.step LabelsToKeyString).
Local Abbreviation run := (Engine.run LabelsToKeyString).
Local Abbreviation addChunkSeries := (Engine.addChunkSeries LabelsToKeyString).
Local Abbreviation addTimeSeries := (Engine.addTimeSeries LabelsToKeyString).
Local Abbreviation chunkseriesKeys := (Engine.chunkseriesKeys LabelsToKeyString).
Local Abbreviation timeseriesKeys := (Engine.timeseriesKeys LabelsToKeyString).
Local Abbreviation accounted := (Accounting.accounted LabelsToKeyString).
Local Abbreviation keyCS := (λ series, LabelsToKeyString (csLabels series)).
Local Abbreviation keyTS := (λ series, LabelsToKeyString (tLabels series)).

(** C10. In every state a streaming query execution reaches, the batches
    the aggregator has received are batches the callbacks sent, from
    however many replicas; under each canonical label-set key the
    chunk-series map, and the time-series map, has a single entry into
    which every received series with that key is folded, and no entry for
    a key no received series has; the response built from that state lists
    exactly the entries of each map, each once, so that no key appears
    twice in its chunk-series list nor in its time-series list; and what
    the return statement hands to the caller is that response. *)
Theorem response_one_entry_per_key (pending : list (list Push))
    (schedule : list Choice) (s : State) :
  run schedule (initial pending) = Some s →
  ∃ receivedCS receivedTS,
    receivedCS ++ chCS s ++ batchesCS (concat (replicas s))
      ≡ₚ batchesCS (concat pending)
    ∧ receivedTS ++ chTS s ++ batchesTS (concat (replicas s))
      ≡ₚ batchesTS (concat pending)
    ∧ (∀ k, hashToChunkseries s !! k
            = chunkEntry (filter (λ c, keyCS c = k) (concat receivedCS)))
    ∧ (∀ k, hashToTimeSeries s !! k
            = timeEntry (filter (λ c, keyTS c = k) (concat receivedTS)))
    ∧ (∀ e, e ∈ rChunkseries (buildResponse s) ↔
            hashToChunkseries s !! keyCS e = Some e)
    ∧ (∀ e, e ∈ rTimeseries (buildResponse s) ↔
            hashToTimeSeries s !! keyTS e = Some e)
    ∧ length (rChunkseries (buildResponse s)) = size (hashToChunkseries s)
    ∧ length (rTimeseries (buildResponse s)) = size (hashToTimeSeries s)
    ∧ NoDup (chunkseriesKeys (buildResponse s))
    ∧ NoDup (timeseriesKeys (buildResponse s))
    ∧ (∀ t t', step Finish t = Some t' →
         returned t' = Some match doErr t with
                            | Some err => inl err
                            | None => inr (buildResponse t)
                            end).
Proof.
  intros Hrun.
  assert (accounted pending s) as (rcs & rts & Hcs & Hts & Pcs & Pts).
  { eapply (run_invariant LabelsToKeyString (accounted pending));
      [apply accounted_step|exact Hrun|apply accounted_initial]. }
  destruct (keyed_run LabelsToKeyString pending schedule s Hrun) as [Kcs Kts].
  exists rcs, rts.
  split; [exact Pcs|]. split; [exact Pts|]. split.
  { intros k. rewrite Hcs. unfold Aggregated.aggregateCS.
    rewrite foldl_foldl_concat.
    apply (foldl_addChunkSeries_lookup LabelsToKeyString ∅ []).
    intros k'. by rewrite lookup_empty. }
  split.
  { intros k. rewrite Hts. unfold Aggregated.aggregateTS.
    rewrite foldl_foldl_concat.
    apply (foldl_addTimeSeries_lookup LabelsToKeyString ∅ []).
    intros k'. by rewrite lookup_empty. }
  split.
  { intros e. unfold buildResponse. simpl. rewrite elem_of_map_values. split.
    - intros (k & Hk). by rewrite (Kcs k e Hk).
    - eauto. }
  split.
  { intros e. unfold buildResponse. simpl. rewrite elem_of_map_values. split.
    - intros (k & Hk). by rewrite (Kts k e Hk).
    - eauto. }
  split; [unfold buildResponse; simpl; by rewrite length_fmap, length_map_to_list|].
  split; [unfold buildResponse; simpl; by rewrite length_fmap, length_map_to_list|].
  split.
  { unfold Engine.chunkseriesKeys, buildResponse. simpl.
    by apply (keyed_values_nodup (λ series, LabelsToKeyString (csLabels series))). }
  split.
  { unfold Engine.timeseriesKeys, buildResponse. simpl.
    by apply (keyed_values_nodup (λ series, LabelsToKeyString (tLabels series))). }
  intros t t' Hstep. unfold Engine.step in Hstep.
  destruct (decide (main t = MainClose)); [|done].
  by injection Hstep as <-.
Qed.

End Laws.

(** The theorem at the run of two replicas that each send a batch for the
    label set of "up": both batches are folded into the one entry. *)
Lemma response_one_entry_per_key_witness :
  ∃ receivedCS receivedTS,
    receivedCS ++ chCS wState ++ batchesCS (concat (replicas wState))
      ≡ₚ batchesCS (concat wPending)
    ∧ receivedTS ++ chTS wState ++ batchesTS (concat (replicas wState))
      ≡ₚ batchesTS (concat wPending)
    ∧ (∀ k, hashToChunkseries wState !! k
            = chunkEntry (filter (λ c, wKey (csLabels c) = k) (concat receivedCS)))
    ∧ (∀ k, hashToTimeSeries wState !! k
            = timeEntry (filter (λ c, wKey (tLabels c) = k) (concat receivedTS)))
    ∧ (∀ e, e ∈ rChunkseries (buildResponse wState) ↔
            hashToChunkseries wState !! wKey (csLabels e) = Some e)
    ∧ (∀ e, e ∈ rTimeseries (buildResponse wState) ↔
            hashToTimeSeries wState !! wKey (tLabels e) = Some e)
    ∧ length (rChunkseries (buildResponse wState)) = size (hashToChunkseries wState)
    ∧ length (rTimeseries (buildResponse wState)) = size (hashToTimeSeries wState)
    ∧ NoDup (Engine.chunkseriesKeys wKey (buildResponse wState))
    ∧ NoDup (Engine.timeseriesKeys wKey (buildResponse wState))
    ∧ (∀ t t', Engine.step wKey Finish t = Some t' →
         returned t' = Some match doErr t with
                            | Some err => inl err
                            | None => inr (buildResponse t)
                            end).
Proof.
  apply (response_one_entry_per_key wKey wPending wSchedule wState).
  reflexivity.
Defined.

End EngineResponse.

(** ** The index page *)

Module IndexPageLaws.
Import IndexPage.

Lemma copySection_id (v : gmap string string) : copySection v = v.
Proof.
  unfold copySection.
  apply (map_fold_weak_ind (λ r m, r = m)); [done|].
  by intros i x m r _ ->.
Qed.

Lemma GetContent_id (pc : Content) : GetContent pc = pc.
Proof.
  unfold GetContent.
  apply (map_fold_weak_ind (λ r m, r = m)); [done|].
  intros i x m r _ ->. by rewrite copySection_id.
Qed.

Lemma linkOf_AddLink (pc : Content) (section path description s p : string) :
  linkOf (AddLink pc section path description) s p =
    if decide (s = section ∧ p = path) then Some description else linkOf pc s p.
Proof.
  unfold linkOf, AddLink.
  destruct (decide (s = section)) as [->|Hs].
  - rewrite lookup_insert_eq. simpl.
    destruct (decide (p = path)) as [->|Hp].
    + rewrite lookup_insert_eq. by rewrite decide_True.
    + rewrite lookup_insert_ne by done. rewrite decide_False by tauto.
      by destruct (pc !! section).
  - rewrite lookup_insert_ne by done. by rewrite decide_False by tauto.
Qed.

(** X22. [GetContent] hands back every section and every link of the
    content and nothing else, so after [AddLink] it shows the new
    description under the section and path given, whatever was there
    before, and every other link as it was. *)
Theorem GetContent_after_AddLink (pc : Content)
    (section path description : string) :
  GetContent pc = pc
  ∧ linkOf (GetContent (AddLink pc section path description)) section path
    = Some description
  ∧ ∀ s p, ¬ (s = section ∧ p = path) →
      linkOf (GetContent (AddLink pc section path description)) s p
      = linkOf (GetContent pc) s p.
Proof.
  rewrite !GetContent_id. split; [done|]. split.
  - rewrite linkOf_AddLink. by rewrite decide_True.
  - intros s p Hne. rewrite linkOf_AddLink. by rewrite decide_False.
Qed.

Lemma noEmptySection_AddLink pc section path description :
  noEmptySection pc → noEmptySection (AddLink pc section path description).
Proof.
  intros H s sm. unfold AddLink.
  destruct (decide (section = s)) as [->|Hne].
  - rewrite lookup_insert_eq. intros [= <-]. apply insert_non_empty.
  - rewrite lookup_insert_ne by done. apply H.
Qed.

Lemma foldl_AddLink_linkOf (pc : Content) (links : list Link) (s p : string) :
  linkOf (foldl (λ pc '(section, path, description),
                   AddLink pc section path description) pc links) s p
  = match last (filter (λ l : Link, l.1.1 = s ∧ l.1.2 = p) links) with
    | Some l => Some l.2
    | None => linkOf pc s p
    end.
Proof.
  revert pc. induction links as [|[[section path] description] links IH];
    intros pc; [done|].
  simpl. rewrite IH, linkOf_AddLink.
  destruct (decide (section = s ∧ path = p)) as [[-> ->]|Hne].
  - rewrite filter_cons_True by done. rewrite decide_True by done.
    destruct (filter _ links) as [|l ls] eqn:Hf; [done|].
    rewrite last_cons_cons.
    destruct (last (l :: ls)) eqn:E; [done|]. by apply last_None in E.
  - rewrite filter_cons_False by done.
    rewrite decide_False by (intros [-> ->]; by apply Hne). done.
Qed.

(** X23. On a page built from a new [IndexPageContent] by [AddLink] calls,
    [GetContent] shows for a section and a path the description of the
    last call made for them, and no link when there was none; no section
    it shows is without a link. *)
Theorem GetContent_of_added_links (links : list Link) :
  (∀ s p, linkOf (GetContent (addLinks links)) s p
          = snd <$> last (filter (λ l : Link, l.1.1 = s ∧ l.1.2 = p) links))
  ∧ noEmptySection (GetContent (addLinks links)).
Proof.
  rewrite GetContent_id. unfold addLinks. split.
  - intros s p. rewrite foldl_AddLink_linkOf.
    by destruct (last _).
  - assert (∀ pc, noEmptySection pc →
      noEmptySection (foldl (λ pc '(section, path, description),
                               AddLink pc section path description) pc links))
      as H.
    { induction links as [|[[section path] description] links IH];
        intros pc Hpc; [done|].
      simpl. by apply IH, noEmptySection_AddLink. }
    apply H. intros s sm. unfold newIndexPageContent.
    by rewrite lookup_empty.
Qed.

End IndexPageLaws.
